(** * synapse-indexer: the bridge-event indexer, embedded and verified

    A shallow embedding of [src/indexer/processEvents.js] (event
    extraction, swap-pool resolution, upsert into the document store) and
    of [indexForward] (the per-chain indexing pass with its lock flag and
    block checkpoint), followed by the properties of the specification
    that concern them.

    Conventions of the embedding:
    - a JavaScript Number that holds an integer is a [Z] inside [Num];
      arithmetic on Numbers rounds to the nearest double ([fl]);
    - an ethers BigNumber is an exact [Z];
    - a call that may reject or throw returns a [result];
    - the collaborators that the repository only calls (the chain reader,
      the ABI decoders, the hash function) are the fields of [Env];
    - the key-value store is a [gmap string string], the document store a
      list of documents, each a [gmap string jsval]. *)

From Stdlib Require Import ZArith Lia List Bool Ascii String.
From stdpp Require Import gmap strings list fin_maps pretty.

Local Open Scope Z_scope.

(* ===================================================================== *)
(** ** JavaScript Numbers *)
(* ===================================================================== *)

(** An integer-valued double, or NaN.  Infinities (magnitudes of 2^1024
    and more) are outside the model: token amounts are uint256. *)
Inductive number : Type :=
| NaN
| Num (z : Z).

(** Nearest multiple of [p] to [x], ties to the even quotient
    ([0 <= x], [0 < p]). *)
Definition rne (x p : Z) : Z :=
  let q := x / p in
  let r := x mod p in
  if 2 * r <? p then q * p
  else if p <? 2 * r then (q + 1) * p
  else if Z.even q then q * p else (q + 1) * p.

(** Rounding of a non-negative integer to a double: 53 significant bits. *)
Definition fl_pos (x : Z) : Z :=
  if x <? 2 ^ 53 then x else rne x (2 ^ (Z.log2 x - 52)).

(** Rounding of an integer to the nearest double, ties to even. *)
Definition fl (x : Z) : Z :=
  if x <? 0 then - fl_pos (- x) else fl_pos x.

Definition num_add (a b : number) : number :=
  match a, b with
  | Num x, Num y => Num (fl (x + y))
  | _, _ => NaN
  end.

Definition num_sub (a b : number) : number :=
  match a, b with
  | Num x, Num y => Num (fl (x - y))
  | _, _ => NaN
  end.

(** [Math.min] *)
Definition Math_min (a b : number) : number :=
  match a, b with
  | Num x, Num y => Num (Z.min x y)
  | _, _ => NaN
  end.

(** [===] on two Numbers *)
Definition num_eqb (a b : number) : bool :=
  match a, b with
  | Num x, Num y => x =? y
  | _, _ => false
  end.

(** [String(n)] for an integer-valued Number below 1e21 in magnitude
    (JavaScript switches to exponent notation above). *)
Definition Number_toString (n : number) : string :=
  match n with
  | NaN => "NaN"
  | Num z => pretty z
  end.

(* ===================================================================== *)
(** ** parseInt *)
(* ===================================================================== *)

Definition is_whitespace (c : ascii) : bool :=
  let n := nat_of_ascii c in
  ((9 <=? n) && (n <=? 13))%nat || (n =? 32)%nat.

Fixpoint skip_whitespace (s : string) : string :=
  match s with
  | String c r => if is_whitespace c then skip_whitespace r else s
  | EmptyString => s
  end.

(** Value of a character as a digit in radix up to 36. *)
Definition digit_value (c : ascii) : option Z :=
  let n := Z.of_nat (nat_of_ascii c) in
  if (48 <=? n) && (n <=? 57) then Some (n - 48)
  else if (97 <=? n) && (n <=? 122) then Some (n - 87)
  else if (65 <=? n) && (n <=? 90) then Some (n - 55)
  else None.

(** The longest prefix of digits in [radix]; [None] when it is empty. *)
Fixpoint parse_digits (radix : Z) (s : string) (acc : option Z) : option Z :=
  match s with
  | String c r =>
      match digit_value c with
      | Some d =>
          if d <? radix
          then parse_digits radix r (Some (default 0 acc * radix + d))
          else acc
      | None => acc
      end
  | EmptyString => acc
  end.

Definition strip_sign (s : string) : bool * string :=
  match s with
  | String "-" r => (true, r)
  | String "+" r => (false, r)
  | _ => (false, s)
  end.

Definition strip_hex_prefix (s : string) : option string :=
  match s with
  | String "0" (String "x" r) => Some r
  | String "0" (String "X" r) => Some r
  | _ => None
  end.

(** [parseInt(s)] with no radix argument. *)
Definition parseInt (s : string) : number :=
  let '(neg, s1) := strip_sign (skip_whitespace s) in
  let digits :=
    match strip_hex_prefix s1 with
    | Some r => parse_digits 16 r None
    | None => parse_digits 10 s1 None
    end in
  match digits with
  | Some v => Num (fl (if neg then - v else v))
  | None => NaN
  end.

(* ===================================================================== *)
(** ** Values, errors, results *)
(* ===================================================================== *)

(** The JavaScript values that end up in a document or in a token
    variable. *)
Inductive jsval : Type :=
| VUndef
| VNull
| VBool (b : bool)
| VNum (n : number)
| VStr (s : string)
| VBig (z : Z).

Global Instance number_eq_dec : EqDecision number.
Proof. solve_decision. Defined.

Global Instance jsval_eq_dec : EqDecision jsval.
Proof. solve_decision. Defined.

Inductive error : Type :=
| TypeError (msg : string)
| UnknownTopic
| CallFailed (msg : string).

Inductive result (A : Type) : Type :=
| Ok (a : A)
| Throw (e : error).
Arguments Ok {A} a.
Arguments Throw {A} e.

(** Sequencing with propagation of the exception: [x ← c; k]. *)
Global Instance result_ret : MRet result := λ A a, Ok a.
Global Instance result_bind : MBind result := λ A B k c,
  match c with
  | Ok a => k a
  | Throw e => Throw e
  end.

(** Truthiness of a value. *)
Definition truthy (v : jsval) : bool :=
  match v with
  | VUndef | VNull => false
  | VBool b => b
  | VNum NaN => false
  | VNum (Num z) => negb (z =? 0)
  | VStr s => negb (String.eqb s "")
  | VBig _ => true
  end.

(** A property key made from a value ([obj[v]]). *)
Definition property_key (v : jsval) : string :=
  match v with
  | VUndef => "undefined"
  | VNull => "null"
  | VBool true => "true"
  | VBool false => "false"
  | VNum n => Number_toString n
  | VStr s => s
  | VBig z => pretty z
  end.

(** Reading property [p] of a primitive string: its own properties are
    [length] and the character indices; any other name is looked up on
    [String.prototype], whose members are methods with other names than
    the ones this program reads. *)
Definition string_property (s p : string) : jsval :=
  if String.eqb p "length" then VNum (Num (Z.of_nat (String.length s)))
  else match parse_digits 10 p None with
       | Some i =>
           if String.eqb (pretty i) p
           then match String.get (Z.to_nat i) s with
                | Some c => VStr (String c EmptyString)
                | None => VUndef
                end
           else VUndef
       | None => VUndef
       end.

(** [arr[i]] for an index that is a Number or undefined. *)
Definition array_get (arr : list jsval) (i : option Z) : jsval :=
  match i with
  | Some n => if n <? 0 then VUndef else nth (Z.to_nat n) arr VUndef
  | None => VUndef
  end.

(* ===================================================================== *)
(** ** Chain data and collaborators *)
(* ===================================================================== *)

(** A receipt log.  [log_data] is the hex string of the raw data. *)
Record Log : Type := {
  log_address : string;
  log_topics : list string;
  log_data : string
}.

(** The [args] of a decoded bridge log.  A uint256 argument is a
    BigNumber, a uint8 a Number, an address or bytes32 a string; an
    argument that the decoded event does not have reads as undefined
    ([None]). *)
Record LogArgs : Type := {
  arg_chainId : option Z;
  arg_to : option string;
  arg_kappa : option string;
  arg_fee : option Z;
  arg_swapTokenIndex : option Z;
  arg_swapSuccess : option bool;
  arg_token : option string;
  arg_amount : option Z
}.

(** The object [{}] *)
Definition no_args : LogArgs :=
  {| arg_chainId := None; arg_to := None; arg_kappa := None; arg_fee := None;
     arg_swapTokenIndex := None; arg_swapSuccess := None; arg_token := None;
     arg_amount := None |}.

Record Transaction : Type := {
  tx_from : string;
  tx_data : string
}.

Record Block : Type := {
  block_timestamp : Z
}.

Record Receipt : Type := {
  receipt_logs : list Log
}.

(** An event returned by [queryFilter], with the outcome of the three
    lookups that [processEvents] awaits on it. *)
Record Event : Type := {
  transactionHash : string;
  topics : list string;
  getTransaction : result Transaction;
  getBlock : result Block;
  getTransactionReceipt : result Receipt
}.

Record EventInfo : Type := {
  direction : string;
  eventName : string
}.

(** [chainConfig]: [chain_tokens] maps a token address to its symbol. *)
Record ChainConfig : Type := {
  chain_name : string;
  chain_id : Z;
  chain_rpc : string;
  chain_bridge : string;
  chain_tokens : gmap string string
}.

(** What the repository calls and does not implement. *)
Record Env : Type := {
  (** the static table of [config/topics.js], in key order *)
  Topics : list (string * EventInfo);
  (** [ethers.utils.keccak256(ethers.utils.toUtf8Bytes(s))] *)
  keccak256 : string → string;
  (** [BigNumber.from(s)] on a string *)
  BigNumber_from : string → result Z;
  (** [contract.interface.parseLog(log).args] *)
  parseLog : Log → result LogArgs;
  (** [contract.interface.decodeFunctionData(name, input).pool] *)
  decodeFunctionData : option string → string → result jsval;
  (** [getTokenContract(id, address)], as the function
      [log => contract.interface.parseLog(log).args.value] *)
  getTokenContract : Z → jsval → result (Log → result (option Z));
  (** [new ethers.Contract(poolAddress, getBasePoolAbi(), provider)], as
      the function [i => (await contract.functions.getToken(i))[0]] *)
  poolContract : jsval → result (nat → result jsval);
  (** [getW3Provider(id, rpc)] *)
  getW3Provider : Z → string → result unit;
  (** [w3Provider.getBlockNumber()] *)
  getBlockNumber : result Z;
  (** [ethers.utils.getAddress] *)
  getAddress : string → result string;
  (** [bridgeContract.queryFilter(filter, fromBlock, toBlock)] with the
      bridge address and the topic list of the filter *)
  queryFilter : string → list string → number → number → result (list Event)
}.

(** [ChainId.ETH] of the Synapse SDK *)
Definition ChainId_ETH : Z := 1.

(** Modelled from the spec: [getTopicsHash] of [config/topics.js], which
    is not among the sources; the known topic set is the key set of the
    static topic table. *)
Definition getTopicsHash (env : Env) : list string :=
  (Topics env).*1.

(** Modelled from the spec: [getEventForTopic] of [config/topics.js],
    which is not among the sources; classify "fails with UnknownTopic if
    the hash is absent from the static table".  The argument is
    [event.topics[0]], undefined for an event without topics. *)
Definition getEventForTopic (env : Env) (topicHash : option string)
  : result EventInfo :=
  match topicHash with
  | Some t =>
      match list_find (λ e, e.1 = t) (Topics env) with
      | Some (_, (_, info)) => Ok info
      | None => Throw UnknownTopic
      end
  | None => Throw UnknownTopic
  end.

(* ===================================================================== *)
(** ** processEvents.js: helpers *)
(* ===================================================================== *)

Definition getFunctionForEvent (eventName : string) : option string :=
  if String.eqb eventName "TokenWithdrawAndRemove" then Some "withdrawAndRemove"
  else if String.eqb eventName "TokenMintAndSwap" then Some "mintAndSwap"
  else None.

(** The first log, in receipt order, whose topics include [topicHash]. *)
Definition log_with_topic (topicHash : string) (logs : list Log) : option Log :=
  List.find (λ log, bool_decide (topicHash ∈ log_topics log)) logs.

Fixpoint first_log_of_topics (hashes : list string) (logs : list Log)
  : option Log :=
  match hashes with
  | [] => None
  | topicHash :: rest =>
      match log_with_topic topicHash logs with
      | Some log => Some log
      | None => first_log_of_topics rest logs
      end
  end.

Definition getEventLogArgs (env : Env) (logs : list Log) : result LogArgs :=
  match first_log_of_topics (getTopicsHash env) logs with
  | Some log => parseLog env log
  | None => Ok no_args
  end.

(** The result object of [parseTransferLog]; a field never assigned reads
    as undefined. *)
Record TransferInfo : Type := {
  sentTokenAddress : jsval;
  sentTokenSymbol : jsval;
  sentValue : jsval
}.

Definition BigNumber_toString (z : Z) : string := pretty z.

Fixpoint parseTransferLog (env : Env) (chainConfig : ChainConfig)
    (logs : list Log) : result TransferInfo :=
  match logs with
  | [] => Ok {| sentTokenAddress := VUndef; sentTokenSymbol := VUndef;
                sentValue := VUndef |}
  | log :: rest =>
      match chain_tokens chainConfig !! log_address log with
      | Some symbol =>
          let raw := BigNumber_from env (log_data log) in
          value ←
            (if negb (String.eqb symbol "WETH") && (chain_id chainConfig =? 1)
             then
               match (tokenContract ← getTokenContract env
                          (chain_id chainConfig) (VStr (log_address log));
                      tokenContract log) with
               | Ok (Some v) => Ok v
               | Ok None => Throw (TypeError "invalid BigNumber value")
               | Throw _ => raw
               end
             else raw);
          Ok {| sentTokenAddress := VStr (log_address log);
                sentTokenSymbol := VStr symbol;
                sentValue := VStr (BigNumber_toString value) |}
      | None => parseTransferLog env chainConfig rest
      end
  end.

(** The loop of [getSwapPoolCoinAddresses]: [remaining] iterations are
    left, [i] is the index to probe.  The second component lists the
    indices probed, in call order. *)
Fixpoint probe_coins (getToken : nat → result jsval) (remaining i : nat)
    (res : list jsval) (probed : list nat) : list jsval * list nat :=
  match remaining with
  | O => (res, probed)
  | S remaining' =>
      match getToken i with
      | Ok token =>
          probe_coins getToken remaining' (S i) (res ++ [token]) (probed ++ [i])
      | Throw _ => (res, probed ++ [i])
      end
  end.

Definition resolve_pool (getToken : nat → result jsval) : list jsval * list nat :=
  probe_coins getToken (Z.to_nat (Z.shiftl 1 8)) 0 [] [].

Definition getSwapPoolCoinAddresses (env : Env) (poolAddress : jsval)
  : result (list jsval) :=
  contract ← poolContract env poolAddress;
  Ok (resolve_pool contract).1.

(* ===================================================================== *)
(** ** The document store and upsert *)
(* ===================================================================== *)

(** Modelled from the spec: the document store behind
    [BridgeTransaction] ([db/transaction.js] is not among the sources),
    with the operations findOne({kappa}), insert(record) and
    findOneAndUpdate({kappa}, fields) of a Mongoose model: a field whose
    value is undefined is not written; a filter value of undefined or
    null selects a document without that field or with null in it; an
    update sets each given field and leaves the other fields alone. *)
Definition strip_undefined (args : gmap string jsval) : gmap string jsval :=
  filter (λ kv, kv.2 ≠ VUndef) args.

Definition matches_kappa (kappa : jsval) (doc : gmap string jsval) : bool :=
  match kappa with
  | VUndef | VNull =>
      bool_decide (doc !! "kappa" = None ∨ doc !! "kappa" = Some VNull)
  | _ => bool_decide (doc !! "kappa" = Some kappa)
  end.

Definition findOne (kappa : jsval) (db : list (gmap string jsval))
  : option (gmap string jsval) :=
  List.find (matches_kappa kappa) db.

Definition insert_doc (args : gmap string jsval)
    (db : list (gmap string jsval)) : list (gmap string jsval) :=
  db ++ [strip_undefined args].

Fixpoint findOneAndUpdate (kappa : jsval) (args : gmap string jsval)
    (db : list (gmap string jsval)) : list (gmap string jsval) :=
  match db with
  | [] => []
  | doc :: rest =>
      if matches_kappa kappa doc
      then (strip_undefined args ∪ doc) :: rest
      else doc :: findOneAndUpdate kappa args rest
  end.

Definition upsertBridgeTxnInDb (kappa : jsval) (args : gmap string jsval)
    (db : list (gmap string jsval)) : list (gmap string jsval) :=
  match findOne kappa db with
  | None => insert_doc args db
  | Some _ => findOneAndUpdate kappa args db
  end.

(* ===================================================================== *)
(** ** processEvents.js: the extractor *)
(* ===================================================================== *)

(** The shapes [receivedValue] takes: null, undefined, a Number (after a
    subtraction) or a BigNumber (after a decode). *)
Inductive rvalue : Type :=
| RNull
| RUndef
| RNumber (n : number)
| RBig (z : Z).

(** [!receivedValue] *)
Definition rvalue_falsy (v : rvalue) : bool :=
  match v with
  | RNull | RUndef => true
  | RNumber NaN => true
  | RNumber (Num z) => z =? 0
  | RBig _ => false
  end.

(** ToNumber of a BigNumber-or-undefined operand: a BigNumber has no
    [valueOf] of its own, so the conversion goes through [toString()],
    the exact decimal string, and rounds it to a double. *)
Definition BigNumber_ToNumber (v : option Z) : number :=
  match v with
  | Some z => Num (fl z)
  | None => NaN
  end.

Definition rvalue_ToNumber (v : rvalue) : number :=
  match v with
  | RNull => Num 0
  | RUndef => NaN
  | RNumber n => n
  | RBig z => Num (fl z)
  end.

(** [receivedValue !== data.amount], where [data.amount] is a BigNumber
    or undefined.  Two BigNumbers are compared as objects, and the one in
    [receivedValue] comes from another decode call than [data.amount]:
    they are never the same object. *)
Definition rvalue_strict_ne (v : rvalue) (amount : option Z) : bool :=
  match v, amount with
  | RUndef, None => false
  | _, _ => true
  end.

Definition rvalue_jsval (v : rvalue) : jsval :=
  match v with
  | RNull => VNull
  | RUndef => VUndef
  | RNumber n => VNum n
  | RBig z => VBig z
  end.

Definition opt_str (o : option string) : jsval := from_option VStr VUndef o.
Definition opt_bool (o : option bool) : jsval := from_option VBool VUndef o.

(** The local object [data] of the IN branch. *)
Record EventData : Type := {
  data_to : option string;
  data_fee : option Z;
  data_tokenIndexTo : option Z;
  data_swapSuccess : option bool;
  data_token : option string;
  data_amount : option Z
}.

(** What one iteration of the loop of [processEvents] does to the
    document store: nothing ([continue]) or one upsert. *)
Inductive step : Type :=
| Skip (logged : string)
| Upsert (kappa : jsval) (args : gmap string jsval).

(** [v.toString()] on a BigNumber or undefined *)
Definition BigNumber_toString_method (v : option Z) : result string :=
  match v with
  | Some z => Ok (BigNumber_toString z)
  | None => Throw (TypeError "Cannot read properties of undefined")
  end.

Definition processOut (env : Env) (chainConfig : ChainConfig)
    (txnHash : string) (txn : Transaction) (timestamp : Z)
    (logs : list Log) (eventLogArgs : LogArgs) : result step :=
  toChainId ← BigNumber_toString_method (arg_chainId eventLogArgs);
  let toAddress := opt_str (arg_to eventLogArgs) in
  let fromAddress := string_property (tx_from txn) "fromAddress" in
  transfer ← parseTransferLog env chainConfig logs;
  let fromChainId := chain_id chainConfig in
  let kappa := keccak256 env txnHash in
  let pending := true in
  Ok (Upsert (VStr kappa) (list_to_map [
        ("fromTxnHash", VStr txnHash);
        ("fromAddress", fromAddress);
        ("toAddress", toAddress);
        ("fromChainId", VNum (Num fromChainId));
        ("toChainId", VStr toChainId);
        ("sentValue", sentValue transfer);
        ("sentTokenAddress", sentTokenAddress transfer);
        ("sentTokenSymbol", sentTokenSymbol transfer);
        ("kappa", VStr kappa);
        ("sentTime", VNum (Num timestamp));
        ("pending", VBool pending) ])).

Definition nUSD_ETH : string := "0x1b84765de8b7566e4ceaf4d0fd3c5af52d3dde4f".
Definition GMX_AVAX : string := "0x20A9DC684B4d0407EF8C9A302BEAaA18ee15F656".
Definition GMX_AVAX_ERC20 : string := "0x62edc0692BD897D2295872a9FFCac5425011c661".

(** The loop "Searching logs for received value": the first log emitted
    by [receivedToken] decides; without one [receivedValue] stays. *)
Fixpoint search_received_value (tokenContract : Log → result (option Z))
    (receivedToken : jsval) (receivedValue : rvalue) (logs : list Log)
  : result rvalue :=
  match logs with
  | [] => Ok receivedValue
  | log :: rest =>
      if bool_decide (VStr (log_address log) = receivedToken)
      then value ← tokenContract log; Ok (from_option RBig RUndef value)
      else search_received_value tokenContract receivedToken receivedValue rest
  end.

(** The loop of the TokenMint correction. *)
Fixpoint mint_rescan (env : Env) (amount : option Z) (logs : list Log)
    (receivedValue : rvalue) (receivedToken : jsval)
  : result (rvalue * jsval) :=
  match logs with
  | [] => Ok (receivedValue, receivedToken)
  | log :: rest =>
      value ← BigNumber_from env (log_data log);
      match amount with
      | Some a =>
          if a >? value
          then Ok (RBig value, VStr (log_address log))
          else mint_rescan env amount rest (RBig value) (VStr (log_address log))
      | None => Throw (TypeError "Cannot read properties of undefined")
      end
  end.

(** Lines 266 to 278: the correction of a mint leg. *)
Definition mint_correction (env : Env) (eventName : string)
    (amount : option Z) (logs : list Log)
    (receivedValue : rvalue) (receivedToken : jsval)
  : result (rvalue * jsval) :=
  if String.eqb eventName "TokenMint"
     && rvalue_strict_ne receivedValue amount
  then mint_rescan env amount logs receivedValue receivedToken
  else Ok (receivedValue, receivedToken).

(** Lines 280 to 282: [if (!swapSuccess) receivedValue -= data.fee]. *)
Definition fee_adjustment (swapSuccess : jsval) (fee : option Z)
    (receivedValue : rvalue) : rvalue :=
  if negb (truthy swapSuccess)
  then RNumber (num_sub (rvalue_ToNumber receivedValue) (BigNumber_ToNumber fee))
  else receivedValue.

Definition processIn (env : Env) (chainConfig : ChainConfig)
    (txnHash : string) (txn : Transaction) (timestamp : Z)
    (logs : list Log) (eventName : string) (eventLogArgs : LogArgs)
  : result step :=
  let kappa := opt_str (arg_kappa eventLogArgs) in
  branch ←
    (if String.eqb eventName "TokenWithdrawAndRemove"
        || String.eqb eventName "TokenMintAndSwap"
     then
       pool ← decodeFunctionData env (getFunctionForEvent eventName) (tx_data txn);
       swapPoolAddresses ← getSwapPoolCoinAddresses env pool;
       let data :=
         {| data_to := arg_to eventLogArgs;
            data_fee := arg_fee eventLogArgs;
            data_tokenIndexTo := arg_swapTokenIndex eventLogArgs;
            data_swapSuccess := arg_swapSuccess eventLogArgs;
            data_token := arg_token eventLogArgs;
            data_amount := None |} in
       let receivedToken :=
         if truthy (opt_bool (data_swapSuccess data))
         then array_get swapPoolAddresses (data_tokenIndexTo data)
         else if chain_id chainConfig =? ChainId_ETH
         then VStr nUSD_ETH
         else array_get swapPoolAddresses (Some 0) in
       Ok (Some (data, RNull, receivedToken, opt_bool (data_swapSuccess data)))
     else if String.eqb eventName "TokenWithdraw"
             || String.eqb eventName "TokenMint"
     then
       let data :=
         {| data_to := arg_to eventLogArgs;
            data_fee := arg_fee eventLogArgs;
            data_tokenIndexTo := None;
            data_swapSuccess := None;
            data_token := arg_token eventLogArgs;
            data_amount := arg_amount eventLogArgs |} in
       let receivedToken := opt_str (data_token data) in
       let receivedValue :=
         if String.eqb eventName "TokenWithdraw"
         then RNumber (num_sub (BigNumber_ToNumber (data_amount data))
                               (BigNumber_ToNumber (data_fee data)))
         else RNull in
       Ok (Some (data, receivedValue, receivedToken, VNull))
     else Ok None);
  match branch with
  | None => Ok (Skip "In Event not convered")
  | Some (data, receivedValue, receivedToken, swapSuccess) =>
      let receivedToken :=
        if (chain_id chainConfig =? 43114)
           && bool_decide (receivedToken = VStr GMX_AVAX)
        then VStr GMX_AVAX_ERC20 else receivedToken in
      receivedValue ←
        (if rvalue_falsy receivedValue
         then
           tokenContract ← getTokenContract env (chain_id chainConfig) receivedToken;
           search_received_value tokenContract receivedToken receivedValue logs
         else Ok receivedValue);
      if rvalue_falsy receivedValue
      then Ok (Skip "Error! Unable to find received value for log")
      else
        corrected ←
          mint_correction env eventName (data_amount data) logs
            receivedValue receivedToken;
        let '(receivedValue, receivedToken) := corrected in
        let receivedValue :=
          fee_adjustment swapSuccess (data_fee data) receivedValue in
        Ok (Upsert kappa (list_to_map [
              ("toTxnHash", VStr txnHash);
              ("toAddress", opt_str (data_to data));
              ("receivedValue", rvalue_jsval receivedValue);
              ("receivedTokenAddress", receivedToken);
              ("receivedTokenSymbol",
                 from_option VStr VUndef
                   (chain_tokens chainConfig !! property_key receivedToken));
              ("swapSuccess", swapSuccess);
              ("kappa", kappa);
              ("receivedTime", VNum (Num timestamp));
              ("toChainId", VNum (Num (chain_id chainConfig)));
              ("pending", VBool false) ]))
  end.

(** One iteration of the loop of [processEvents], up to the upsert. *)
Definition processEvent (env : Env) (chainConfig : ChainConfig)
    (event : Event) : result step :=
  let txnHash := transactionHash event in
  txn ← getTransaction event;
  block ← getBlock event;
  let timestamp := block_timestamp block in
  let topicHash := head (topics event) in
  eventInfo ← getEventForTopic env topicHash;
  let eventDirection := direction eventInfo in
  let eventName := eventName eventInfo in
  txnReceipt ← getTransactionReceipt event;
  eventLogArgs ← getEventLogArgs env (receipt_logs txnReceipt);
  if String.eqb eventDirection "OUT"
  then processOut env chainConfig txnHash txn timestamp
         (receipt_logs txnReceipt) eventLogArgs
  else processIn env chainConfig txnHash txn timestamp
         (receipt_logs txnReceipt) eventName eventLogArgs.

(** [processEvents]: the events one after the other; an exception ends
    the batch and leaves the documents written so far. *)
Fixpoint processEvents (env : Env) (chainConfig : ChainConfig)
    (events : list Event) (db : list (gmap string jsval))
  : list (gmap string jsval) * result unit :=
  match events with
  | [] => (db, Ok tt)
  | event :: rest =>
      match processEvent env chainConfig event with
      | Ok (Skip _) => processEvents env chainConfig rest db
      | Ok (Upsert kappa args) =>
          processEvents env chainConfig rest (upsertBridgeTxnInDb kappa args db)
      | Throw e => (db, Throw e)
      end
  end.

(* ===================================================================== *)
(** ** indexForward: the indexing pass *)
(* ===================================================================== *)

(** The two stores a pass works on: the key-value store with the lock
    flag and the checkpoint, and the document store. *)
Record World : Type := {
  redis : gmap string string;
  db : list (gmap string jsval)
}.

Definition lock_key (chainName : string) : string :=
  chainName +:+ "_IS_INDEXING_FORWARD".

Definition checkpoint_key (chainName : string) : string :=
  chainName +:+ "_LATEST_BLOCK_INDEXED".

(** [redisClient.set(key, value)] *)
Definition redis_set (key value : string) (w : World) : World :=
  {| redis := <[key := value]> (redis w); db := db w |}.

(** How an invocation ends. *)
Inductive outcome : Type :=
| AlreadyInProgress
| UpToDate (block : number)
| Indexed (fromBlock toBlock : number)
| Failed (e : error).

(** Lines 30 to 33: the checkpoint read, defaulting to the network head
    when the key is absent or holds the empty string. *)
Definition read_checkpoint (stored : option string) (networkLatestBlock : Z)
  : number :=
  match stored with
  | Some s => if String.eqb s "" then Num networkLatestBlock else parseInt s
  | None => Num networkLatestBlock
  end.

(** Lines 42 to 45 *)
Definition window_end (networkLatestBlock : Z) (indexedLatestBlock : number)
  : number :=
  Math_min (Num networkLatestBlock) (num_add indexedLatestBlock (Num 500)).

(** The body of the [try] block.  An exception leaves the stores as they
    are at the point where it is raised. *)
Definition indexForward_body (env : Env) (chainConfig : ChainConfig)
    (w : World) : World * result outcome :=
  let chainName := chain_name chainConfig in
  match getW3Provider env (chain_id chainConfig) (chain_rpc chainConfig) with
  | Throw e => (w, Throw e)
  | Ok _ =>
  match getBlockNumber env with
  | Throw e => (w, Throw e)
  | Ok networkLatestBlock =>
      let indexedLatestBlock :=
        read_checkpoint (redis w !! checkpoint_key chainName) networkLatestBlock in
      if num_eqb indexedLatestBlock (Num networkLatestBlock)
      then (redis_set (lock_key chainName) "false" w,
            Ok (UpToDate indexedLatestBlock))
      else
        let maxBlockToIndexUntil :=
          window_end networkLatestBlock indexedLatestBlock in
        match getAddress env (chain_bridge chainConfig) with
        | Throw e => (w, Throw e)
        | Ok bridgeContractAddress =>
        match queryFilter env bridgeContractAddress (getTopicsHash env)
                indexedLatestBlock maxBlockToIndexUntil with
        | Throw e => (w, Throw e)
        | Ok filteredEvents =>
            let '(db', processed) :=
              processEvents env chainConfig filteredEvents (db w) in
            let w := {| redis := redis w; db := db' |} in
            match processed with
            | Throw e => (w, Throw e)
            | Ok _ =>
                let w := redis_set (checkpoint_key chainName)
                           (Number_toString maxBlockToIndexUntil) w in
                let w := redis_set (lock_key chainName) "false" w in
                (w, Ok (Indexed indexedLatestBlock maxBlockToIndexUntil))
            end
        end
        end
  end
  end.

Definition indexForward (env : Env) (chainConfig : ChainConfig)
    (w : World) : World * outcome :=
  let chainName := chain_name chainConfig in
  let isIndexing := redis w !! lock_key chainName in
  if bool_decide (isIndexing = Some "true")
  then (w, AlreadyInProgress)
  else
    let w := redis_set (lock_key chainName) "true" w in
    match indexForward_body env chainConfig w with
    | (w, Ok done) => (w, done)
    | (w, Throw err) => (redis_set (lock_key chainName) "false" w, Failed err)
    end.

(* ===================================================================== *)
(** ** Vocabulary of the statements *)
(* ===================================================================== *)

(** [toks] are the answers of a pool at the indices [i], [i+1], ... *)
Definition answers (getToken : nat → result jsval) (i : nat)
    (toks : list jsval) : Prop :=
  Forall2 (λ j t, getToken j = Ok t) (seq i (length toks)) toks.

(** The partial record of an IN leg (the object literal of lines 284 to
    295). *)
Definition in_record (chainConfig : ChainConfig) (txnHash : string)
    (timestamp : Z) (eventLogArgs : LogArgs)
    (receivedValue receivedToken swapSuccess : jsval)
  : gmap string jsval :=
  list_to_map [
    ("toTxnHash", VStr txnHash);
    ("toAddress", opt_str (arg_to eventLogArgs));
    ("receivedValue", receivedValue);
    ("receivedTokenAddress", receivedToken);
    ("receivedTokenSymbol",
       from_option VStr VUndef
         (chain_tokens chainConfig !! property_key receivedToken));
    ("swapSuccess", swapSuccess);
    ("kappa", opt_str (arg_kappa eventLogArgs));
    ("receivedTime", VNum (Num timestamp));
    ("toChainId", VNum (Num (chain_id chainConfig)));
    ("pending", VBool false) ].

(** The fields that an OUT leg writes and an IN leg does not. *)
Definition out_only_fields : list string :=
  [ "fromTxnHash"; "fromAddress"; "fromChainId"; "sentValue";
    "sentTokenAddress"; "sentTokenSymbol"; "sentTime" ].

(** No topic of the static table is the first topic of [event]. *)
Definition unknown_topic (env : Env) (event : Event) : Prop :=
  ∀ t, head (topics event) = Some t → t ∉ getTopicsHash env.

(** "Merge, never overwrite": upserting [args] under [kappa] sets
    pending to false and leaves every other field of the stored document
    as it was. *)
Definition merge_never_overwrites (kappa : jsval) (args : gmap string jsval)
    (db : list (gmap string jsval)) : Prop :=
  ∀ stored merged,
    findOne kappa db = Some stored →
    findOne kappa (upsertBridgeTxnInDb kappa args db) = Some merged →
    merged !! "pending" = Some (VBool false)
    ∧ ∀ f v, f ≠ "pending" → stored !! f = Some v → merged !! f = Some v.

(** "The checkpoint never decreases": a pass that ends by writing the
    checkpoint writes a block that is not below the one it read. *)
Definition checkpoint_never_decreases (env : Env) (chainConfig : ChainConfig)
    (w : World) : Prop :=
  ∀ w' read written,
    indexForward env chainConfig w = (w', Indexed (Num read) (Num written)) →
    read ≤ written.

(** "An event with an unregistered topic is skipped": the batch goes on
    with the events after it, as if it were not there. *)
Definition unknown_topic_is_skipped (env : Env) (chainConfig : ChainConfig)
    (event : Event) (rest : list Event) (db : list (gmap string jsval))
  : Prop :=
  processEvents env chainConfig (event :: rest) db
  = processEvents env chainConfig rest db.

(** [logs] decode, each to a value that satisfies [P]. *)
Definition candidates (env : Env) (P : Z → Prop) (logs : list Log) : Prop :=
  Forall (λ log, ∃ v, BigNumber_from env (log_data log) = Ok v ∧ P v) logs.

(** "The rescan stops at the first candidate whose value does not exceed
    the decoded amount." *)
Definition rescan_stops_at_first_not_exceeding (env : Env) (amount : Z)
    (logs : list Log) (receivedValue : rvalue) (receivedToken : jsval)
  : Prop :=
  ∀ pre log post v,
    logs = pre ++ log :: post →
    candidates env (λ w, amount < w) pre →
    BigNumber_from env (log_data log) = Ok v →
    v ≤ amount →
    mint_rescan env (Some amount) logs receivedValue receivedToken
    = Ok (RBig v, VStr (log_address log)).

(** Case analysis on the next call that may throw. *)
Ltac next_call H :=
  match type of H with
  | context [mbind _ ?c] => destruct c eqn:?; simpl in H; try discriminate H
  end.

(** Invocations of the pass one after the other, each with the
    collaborators as they answer at that time. *)
Definition invocations (chainConfig : ChainConfig) (envs : list Env)
    (w : World) : World :=
  foldl (λ w env, (indexForward env chainConfig w).1) w envs.

(* ===================================================================== *)
(** ** Sample chains, logs and events *)
(* ===================================================================== *)

(** Concrete collaborators and inputs, on which the model is run. *)
Module Sample.

Definition topic_deposit : string := "0xd0".
Definition topic_withdraw : string := "0xd1".
Definition topic_mint : string := "0xd2".
Definition topic_unknown : string := "0xff".

Definition topic_table : list (string * EventInfo) :=
  [ (topic_deposit, {| direction := "OUT"; eventName := "TokenDeposit" |});
    (topic_withdraw, {| direction := "IN"; eventName := "TokenWithdraw" |});
    (topic_mint, {| direction := "IN"; eventName := "TokenMint" |}) ].

Definition keccak (s : string) : string := "keccak:" +:+ s.

(** [BigNumber.from] on ["0x"] followed by hex digits *)
Definition from_hex (s : string) : result Z :=
  match strip_hex_prefix s with
  | Some r =>
      match parse_digits 16 r None with
      | Some v => Ok v
      | None => Throw (CallFailed "invalid BigNumber string")
      end
  | None => Throw (CallFailed "invalid BigNumber string")
  end.

Definition bridge : string := "0xB41D6E".
Definition USDC : string := "0xA0b8".
Definition nUSD : string := "0x1B84".
Definition user : string := "0x5AFE".
Definition other_user : string := "0x0DD1".

Definition deposit_hash : string := "0xaaa1".
Definition withdraw_hash : string := "0xbbb1".
Definition mint_hash : string := "0xccc1".

(** The bridge logs, told apart by their data. *)
Definition deposit_log : Log :=
  {| log_address := bridge; log_topics := [topic_deposit]; log_data := "0x1388" |}.
Definition withdraw_log : Log :=
  {| log_address := bridge; log_topics := [topic_withdraw]; log_data := "0x03e8000a" |}.
Definition mint_log : Log :=
  {| log_address := bridge; log_topics := [topic_mint]; log_data := "0x00640001" |}.

Definition deposit_args : LogArgs :=
  {| arg_chainId := Some 56; arg_to := Some user; arg_kappa := None;
     arg_fee := None; arg_swapTokenIndex := None; arg_swapSuccess := None;
     arg_token := Some USDC; arg_amount := Some 5000 |}.

(** TokenWithdraw with amount 1000 and fee 10 *)
Definition withdraw_args : LogArgs :=
  {| arg_chainId := None; arg_to := Some user;
     arg_kappa := Some (keccak deposit_hash);
     arg_fee := Some 10; arg_swapTokenIndex := None; arg_swapSuccess := None;
     arg_token := Some USDC; arg_amount := Some 1000 |}.

(** TokenMint with amount 100 and fee 1 *)
Definition mint_args : LogArgs :=
  {| arg_chainId := None; arg_to := Some user;
     arg_kappa := Some (keccak deposit_hash);
     arg_fee := Some 1; arg_swapTokenIndex := None; arg_swapSuccess := None;
     arg_token := Some nUSD; arg_amount := Some 100 |}.

Definition decode_bridge_log (log : Log) : result LogArgs :=
  if String.eqb (log_data log) (log_data deposit_log) then Ok deposit_args
  else if String.eqb (log_data log) (log_data withdraw_log) then Ok withdraw_args
  else if String.eqb (log_data log) (log_data mint_log) then Ok mint_args
  else Throw (CallFailed "no matching event").

(** A token contract whose logs are Transfer logs: the value is the
    data. *)
Definition token_contract (id : Z) (address : jsval)
  : result (Log → result (option Z)) :=
  Ok (λ log, v ← from_hex (log_data log); Ok (Some v)).

(** A pool of three coins: [getToken(3)] reverts. *)
Definition three_coins (i : nat) : result jsval :=
  match i with
  | 0%nat => Ok (VStr "0xDA1")
  | 1%nat => Ok (VStr USDC)
  | 2%nat => Ok (VStr "0xDAC")
  | _ => Throw (CallFailed "call revert exception")
  end.

Definition env (head : result Z)
    (query : number → number → result (list Event)) : Env :=
  {| Topics := topic_table;
     keccak256 := keccak;
     BigNumber_from := from_hex;
     parseLog := decode_bridge_log;
     decodeFunctionData := λ _ _, Ok (VStr "0xP001");
     getTokenContract := token_contract;
     poolContract := λ _, Ok three_coins;
     getW3Provider := λ _ _, Ok tt;
     getBlockNumber := head;
     getAddress := λ a, Ok a;
     queryFilter := λ _ _, query |}.

(** The collaborators when only [processEvents] runs. *)
Definition env0 : Env := env (Ok 0) (λ _ _, Ok []).

Definition bsc : ChainConfig :=
  {| chain_name := "bsc"; chain_id := 56; chain_rpc := "https://rpc";
     chain_bridge := bridge;
     chain_tokens := {[ USDC := "USDC"; nUSD := "nUSD" ]} |}.

Definition sender : Transaction :=
  {| tx_from := "0xF00D"; tx_data := "0x" |}.

Definition event_of (hash topic : string) (receipt : list Log) : Event :=
  {| transactionHash := hash; topics := [topic];
     getTransaction := Ok sender;
     getBlock := Ok {| block_timestamp := 1650000000 |};
     getTransactionReceipt := Ok {| receipt_logs := receipt |} |}.

Definition transfer_log (token data : string) : Log :=
  {| log_address := token; log_topics := ["0xddf2"]; log_data := data |}.

Definition deposit_event : Event :=
  event_of deposit_hash topic_deposit
    [transfer_log USDC "0x1388"; deposit_log].

(** A direct withdraw of amount 1000 with fee 10. *)
Definition withdraw_event : Event :=
  event_of withdraw_hash topic_withdraw
    [transfer_log USDC "0x03de"; withdraw_log].

(** A mint of amount 100 with fee 1: the receipt holds a log of the
    minted token with value 100, then a log of another contract with
    value 50, then the bridge log. *)
Definition mint_receipt : list Log :=
  [transfer_log nUSD "0x64"; transfer_log USDC "0x32"; mint_log].

Definition mint_event : Event :=
  event_of mint_hash topic_mint mint_receipt.

Definition unknown_event : Event :=
  event_of "0xeee1" topic_unknown [withdraw_log].

Definition failing_event : Event :=
  {| transactionHash := "0xeee2"; topics := [topic_withdraw];
     getTransaction := Throw (CallFailed "timeout");
     getBlock := Ok {| block_timestamp := 0 |};
     getTransactionReceipt := Ok {| receipt_logs := [] |} |}.

Definition empty_world : World := {| redis := ∅; db := [] |}.

Definition world_at (checkpoint : string) : World :=
  {| redis := {[ checkpoint_key "bsc" := checkpoint ]}; db := [] |}.

(** The OUT leg of a transfer, as stored, and an IN partial record for
    the same kappa that names another recipient. *)
Definition out_doc : gmap string jsval :=
  list_to_map [
    ("fromTxnHash", VStr deposit_hash);
    ("toAddress", VStr user);
    ("fromChainId", VNum (Num 1));
    ("toChainId", VStr "56");
    ("sentValue", VStr "5000");
    ("sentTokenAddress", VStr USDC);
    ("sentTokenSymbol", VStr "USDC");
    ("kappa", VStr (keccak deposit_hash));
    ("sentTime", VNum (Num 1650000000));
    ("pending", VBool true) ].

Definition kappa : jsval := VStr (keccak deposit_hash).

Definition in_args : gmap string jsval :=
  list_to_map [
    ("toTxnHash", VStr withdraw_hash);
    ("toAddress", VStr other_user);
    ("receivedValue", VNum (Num 980));
    ("receivedTokenAddress", VStr USDC);
    ("receivedTokenSymbol", VStr "USDC");
    ("swapSuccess", VNull);
    ("kappa", VStr (keccak deposit_hash));
    ("receivedTime", VNum (Num 1650000100));
    ("toChainId", VNum (Num 56));
    ("pending", VBool false) ].

(** The partial record that [processEvents] builds for
    [withdraw_event]. *)
Definition withdraw_record : gmap string jsval :=
  in_record bsc withdraw_hash 1650000000 withdraw_args
    (VNum (Num 980)) (VStr USDC) VNull.

End Sample.

(* ===================================================================== *)
(** ** Rounding to a double *)
(* ===================================================================== *)

Section Rounding.

Lemma rne_cases (x p : Z) :
  rne x p = x / p * p ∨ rne x p = (x / p + 1) * p.
Proof.
  unfold rne.
  destruct (2 * (x mod p) <? p); [by left |].
  destruct (p <? 2 * (x mod p)); [by right |].
  destruct (Z.even (x / p)); [by left | by right].
Qed.

Lemma rne_exact (k p : Z) : 0 < p → rne (k * p) p = k * p.
Proof.
  intros Hp. unfold rne.
  rewrite Z.mod_mul, Z.div_mul by lia.
  destruct (2 * 0 <? p) eqn:E; [done |].
  apply Z.ltb_ge in E. lia.
Qed.

Lemma rne_mono (x y p : Z) : 0 < p → x ≤ y → rne x p ≤ rne y p.
Proof.
  intros Hp Hxy.
  assert (Hq : x / p ≤ y / p) by (apply Z.div_le_mono; lia).
  pose proof (Z.div_mod x p ltac:(lia)) as Hx.
  pose proof (Z.div_mod y p ltac:(lia)) as Hy.
  pose proof (Z.mod_pos_bound x p Hp) as Bx.
  pose proof (Z.mod_pos_bound y p Hp) as By.
  destruct (decide (x / p = y / p)) as [Heq | Hne].
  - assert (Hr : x mod p ≤ y mod p) by nia.
    unfold rne. rewrite <- Heq.
    repeat match goal with
           | |- context [?a <? ?b] =>
               destruct (Z.ltb_spec a b)
           end; try lia; destruct (Z.even (x / p)); nia.
  - assert (x / p + 1 ≤ y / p) by lia.
    destruct (rne_cases x p) as [-> | ->], (rne_cases y p) as [-> | ->]; nia.
Qed.

Lemma fl_pos_small (x : Z) : x < 2 ^ 53 → fl_pos x = x.
Proof.
  intros H. unfold fl_pos.
  destruct (Z.ltb_spec x (2 ^ 53)); [done | lia].
Qed.

Lemma log2_big (x : Z) : 2 ^ 53 ≤ x → 53 ≤ Z.log2 x.
Proof.
  intros H. change 53 with (Z.log2 (2 ^ 53)) at 1.
  by apply Z.log2_le_mono.
Qed.

Lemma pow2_split (k : Z) : 52 ≤ k → 2 ^ k = 2 ^ 52 * 2 ^ (k - 52).
Proof.
  intros H. rewrite <- Z.pow_add_r by lia. f_equal. lia.
Qed.

Lemma fl_pos_big (x : Z) :
  2 ^ 53 ≤ x → fl_pos x = rne x (2 ^ (Z.log2 x - 52)).
Proof.
  intros H. unfold fl_pos.
  destruct (Z.ltb_spec x (2 ^ 53)); [lia | done].
Qed.

Lemma fl_pos_big_bounds (x : Z) :
  2 ^ 53 ≤ x → 2 ^ Z.log2 x ≤ fl_pos x ≤ 2 ^ (Z.log2 x + 1).
Proof.
  intros H. pose proof (log2_big x H) as Hk.
  rewrite fl_pos_big by done.
  set (k := Z.log2 x) in *. set (p := 2 ^ (k - 52)).
  assert (Hp : 0 < p) by (apply Z.pow_pos_nonneg; lia).
  destruct (Z.log2_spec x ltac:(lia)) as [Hlo Hhi]. fold k in Hlo, Hhi.
  rewrite Z.add_1_r in *.
  assert (E1 : 2 ^ k = 2 ^ 52 * p) by (apply pow2_split; lia).
  assert (E2 : 2 ^ Z.succ k = 2 ^ 53 * p).
  { rewrite Z.pow_succ_r, E1 by lia. change (2 ^ 53) with (2 * 2 ^ 52). lia. }
  split.
  - rewrite E1 at 1. rewrite <- (rne_exact (2 ^ 52) p Hp), <- E1.
    by apply rne_mono.
  - rewrite E2 at 1. rewrite <- (rne_exact (2 ^ 53) p Hp), <- E2.
    apply rne_mono; lia.
Qed.

Lemma fl_pos_mono (x y : Z) : x ≤ y → fl_pos x ≤ fl_pos y.
Proof.
  intros Hxy.
  destruct (Z.lt_ge_cases y (2 ^ 53)) as [Hy | Hy].
  { rewrite !fl_pos_small by lia. done. }
  pose proof (fl_pos_big_bounds y Hy) as [Hylo _].
  pose proof (log2_big y Hy) as Hky.
  destruct (Z.lt_ge_cases x (2 ^ 53)) as [Hx | Hx].
  { rewrite (fl_pos_small x) by lia.
    assert (2 ^ 53 ≤ 2 ^ Z.log2 y) by (apply Z.pow_le_mono_r; lia). lia. }
  pose proof (fl_pos_big_bounds x Hx) as [_ Hxhi].
  assert (Hk : Z.log2 x ≤ Z.log2 y) by (apply Z.log2_le_mono; lia).
  destruct (decide (Z.log2 x = Z.log2 y)) as [Heq | Hne].
  - rewrite !fl_pos_big by done. rewrite Heq.
    apply rne_mono; [apply Z.pow_pos_nonneg; lia | done].
  - assert (2 ^ (Z.log2 x + 1) ≤ 2 ^ Z.log2 y) by (apply Z.pow_le_mono_r; lia).
    lia.
Qed.

Lemma fl_pos_idem (x : Z) : fl_pos (fl_pos x) = fl_pos x.
Proof.
  destruct (Z.lt_ge_cases x (2 ^ 53)) as [Hx | Hx].
  { rewrite (fl_pos_small x) by done. by apply fl_pos_small. }
  pose proof (fl_pos_big_bounds x Hx) as [Hlo Hhi].
  pose proof (log2_big x Hx) as Hk.
  assert (H53 : 2 ^ 53 ≤ 2 ^ Z.log2 x) by (apply Z.pow_le_mono_r; lia).
  assert (Hm : ∃ m, fl_pos x = m * 2 ^ (Z.log2 x - 52)).
  { rewrite fl_pos_big by done.
    destruct (rne_cases x (2 ^ (Z.log2 x - 52))) as [-> | ->]; eauto. }
  destruct Hm as [m Hm].
  destruct (decide (fl_pos x = 2 ^ (Z.log2 x + 1))) as [Htop | Htop].
  - rewrite Htop, fl_pos_big by lia.
    rewrite Z.log2_pow2 by lia.
    rewrite (pow2_split (Z.log2 x + 1)) at 1 by lia.
    rewrite rne_exact by (apply Z.pow_pos_nonneg; lia).
    symmetry. apply pow2_split. lia.
  - rewrite (fl_pos_big (fl_pos x)) by lia.
    assert (Hl : Z.log2 (fl_pos x) = Z.log2 x).
    { apply Z.log2_unique; [lia |]. rewrite <- Z.add_1_r. lia. }
    rewrite Hl. rewrite Hm at 1.
    rewrite rne_exact by (apply Z.pow_pos_nonneg; lia). done.
Qed.

Lemma fl_pos_nonneg (x : Z) : 0 ≤ x → 0 ≤ fl_pos x.
Proof. intros H. apply (fl_pos_mono 0 x H). Qed.

Lemma fl_pos_pos (x : Z) : 0 < x → 0 < fl_pos x.
Proof.
  intros H. pose proof (fl_pos_mono 1 x ltac:(lia)) as H1.
  rewrite (fl_pos_small 1) in H1 by done. lia.
Qed.

(** Integers up to 2^53 in magnitude are doubles. *)
Lemma fl_small (x : Z) : - 2 ^ 53 ≤ x ≤ 2 ^ 53 → fl x = x.
Proof.
  intros [Hlo Hhi]. unfold fl.
  destruct (Z.ltb_spec x 0).
  - destruct (decide (x = - 2 ^ 53)) as [-> | ?]; [done |].
    rewrite fl_pos_small by lia. lia.
  - destruct (decide (x = 2 ^ 53)) as [-> | ?]; [done |].
    rewrite fl_pos_small by lia. lia.
Qed.

Lemma fl_mono (x y : Z) : x ≤ y → fl x ≤ fl y.
Proof.
  intros Hxy. unfold fl.
  destruct (Z.ltb_spec x 0), (Z.ltb_spec y 0); try lia.
  - pose proof (fl_pos_mono (- y) (- x)). lia.
  - pose proof (fl_pos_pos (- x)). pose proof (fl_pos_nonneg y). lia.
  - by apply fl_pos_mono.
Qed.

Lemma fl_idem (x : Z) : fl (fl x) = fl x.
Proof.
  unfold fl. destruct (Z.ltb_spec x 0).
  - pose proof (fl_pos_pos (- x) ltac:(lia)).
    destruct (Z.ltb_spec (- fl_pos (- x)) 0); [| lia].
    by rewrite Z.opp_involutive, fl_pos_idem.
  - pose proof (fl_pos_nonneg x ltac:(lia)).
    destruct (Z.ltb_spec (fl_pos x) 0); [lia |].
    apply fl_pos_idem.
Qed.

End Rounding.

(* ===================================================================== *)
(** ** The swap-pool resolver *)
(* ===================================================================== *)

Section Resolver.

Variable getToken : nat → result jsval.

Lemma answers_collect (i n : nat) :
  (∀ j, (i ≤ j < i + n)%nat → ∃ t, getToken j = Ok t) →
  ∃ toks, length toks = n ∧ answers getToken i toks.
Proof.
  revert i. induction n as [| n IH]; intros i H.
  - exists []. split; [done | constructor].
  - destruct (H i ltac:(lia)) as [t Ht].
    destruct (IH (S i)) as (toks & Hlen & Hans).
    { intros j Hj. apply H. lia. }
    exists (t :: toks). split; [simpl; lia |].
    unfold answers. simpl. by constructor.
Qed.

Lemma answers_lookup (i : nat) (toks : list jsval) :
  answers getToken i toks →
  ∀ j t, toks !! j = Some t → getToken (i + j) = Ok t.
Proof.
  unfold answers. revert i.
  induction toks as [| t0 toks IH]; intros i H j t Hj; [done |].
  simpl in H. inversion H as [| ? ? ? ? H0 Hrest]; subst.
  destruct j as [| j]; simpl in Hj.
  - injection Hj as <-. by rewrite Nat.add_0_r.
  - rewrite <- Nat.add_succ_comm. by apply IH.
Qed.

(** The loop, run from index [i] with [remaining] iterations left, on a
    pool that answers [length toks] times and then fails. *)
Lemma probe_coins_run (remaining i : nat) (res : list jsval)
    (probed : list nat) (toks : list jsval) :
  (length toks ≤ remaining)%nat →
  answers getToken i toks →
  ((length toks < remaining)%nat → ∃ e, getToken (i + length toks) = Throw e) →
  probe_coins getToken remaining i res probed
  = (res ++ toks, probed ++ seq i (Nat.min (S (length toks)) remaining)).
Proof.
  revert i res probed toks.
  induction remaining as [| r IH]; intros i res probed toks Hle Hans Hend.
  - destruct toks; [| simpl in Hle; lia].
    simpl. by rewrite !app_nil_r.
  - destruct toks as [| t toks]; simpl.
    + destruct Hend as [e He]; [simpl; lia |].
      rewrite Nat.add_0_r in He. rewrite He. by rewrite app_nil_r.
    + unfold answers in Hans. simpl in Hans.
      inversion Hans as [| ? ? ? ? Ht Hrest]; subst.
      rewrite Ht. rewrite (IH (S i) _ _ toks).
      * by rewrite <- !app_assoc.
      * simpl in Hle. lia.
      * done.
      * intros Hlt. destruct Hend as [e He]; [simpl; lia |].
        exists e. simpl in He. by rewrite Nat.add_succ_comm.
Qed.

(** Every pool has a first failing index, or answers 256 times. *)
Lemma first_failure (bound : nat) :
  ∃ n, (n ≤ bound)%nat
       ∧ (∀ i, (i < n)%nat → ∃ t, getToken i = Ok t)
       ∧ ((n < bound)%nat → ∃ e, getToken n = Throw e).
Proof.
  induction bound as [| b (n & Hn & Hok & Hend)].
  - exists 0%nat. split; [done |]. split; intros; lia.
  - destruct (decide (n = b)) as [-> | Hne].
    + destruct (getToken b) as [t | e] eqn:Hb.
      * exists (S b). split; [done |]. split; [| lia].
        intros i Hi. destruct (decide (i = b)) as [-> | ?]; [eauto |].
        apply Hok. lia.
      * exists b. split; [lia |]. split; [done | eauto].
    + exists n. split; [lia |]. split; [done |].
      intros _. apply Hend. lia.
Qed.

End Resolver.

(** C9. The swap-pool resolver probes the coin indices 0, 1, 2, ... in
    order; the first call that fails ends the list without failing the
    resolver, and the coins answered before it are returned in order; no
    more than 256 calls are made.  Here [n] is the first failing index,
    or 256 when the pool answers 256 times; a pool that reverts at index
    3 yields a list of 3 coins. *)
Theorem resolver_stops_at_first_failure (env : Env) (poolAddress : jsval)
    (getToken : nat → result jsval) (n : nat) :
  poolContract env poolAddress = Ok getToken →
  (n ≤ 256)%nat →
  (∀ i, (i < n)%nat → ∃ t, getToken i = Ok t) →
  ((n < 256)%nat → ∃ e, getToken n = Throw e) →
  ∃ res,
    getSwapPoolCoinAddresses env poolAddress = Ok res
    ∧ resolve_pool getToken = (res, seq 0 (Nat.min (S n) 256))
    ∧ length res = n
    ∧ (∀ i t, res !! i = Some t → getToken i = Ok t).
Proof.
  intros Hpool Hn Hok Hend.
  destruct (answers_collect getToken 0 n) as (toks & Hlen & Hans).
  { intros j Hj. apply Hok. lia. }
  assert (Hrun : resolve_pool getToken = (toks, seq 0 (Nat.min (S n) 256))).
  { unfold resolve_pool. change (Z.to_nat (Z.shiftl 1 8)) with 256%nat.
    rewrite (probe_coins_run getToken 256 0 [] [] toks); subst n; done. }
  exists toks. repeat split; try done.
  - unfold getSwapPoolCoinAddresses. rewrite Hpool. simpl. by rewrite Hrun.
  - intros i t Hi. by apply (answers_lookup getToken 0 toks Hans i t).
Qed.

Lemma resolver_stops_at_first_failure_witness :
  ∃ res,
    getSwapPoolCoinAddresses Sample.env0 (VStr "0xP001") = Ok res
    ∧ resolve_pool Sample.three_coins = (res, seq 0 (Nat.min 4 256))
    ∧ length res = 3%nat
    ∧ (∀ i t, res !! i = Some t → Sample.three_coins i = Ok t).
Proof.
  apply (resolver_stops_at_first_failure Sample.env0 (VStr "0xP001")
           Sample.three_coins 3).
  - reflexivity.
  - lia.
  - intros i Hi. destruct i as [| [| [| i]]]; simpl; eauto. lia.
  - intros _. simpl. eauto.
Defined.

(* ===================================================================== *)
(** ** The document store: lookup, merge, upsert *)
(* ===================================================================== *)

Section Store.

Implicit Types (kappa : jsval) (args doc : gmap string jsval)
               (db : list (gmap string jsval)).

Lemma strip_undefined_Some args f v :
  strip_undefined args !! f = Some v ↔ args !! f = Some v ∧ v ≠ VUndef.
Proof. unfold strip_undefined. by rewrite map_lookup_filter_Some. Qed.

Lemma strip_undefined_defined args f v :
  args !! f = Some v → v ≠ VUndef → strip_undefined args !! f = Some v.
Proof. intros. by apply strip_undefined_Some. Qed.

Lemma strip_undefined_None args f :
  args !! f = None ∨ args !! f = Some VUndef →
  strip_undefined args !! f = None.
Proof.
  intros H. unfold strip_undefined. apply map_lookup_filter_None.
  destruct H as [H | H]; [by left | right].
  intros x Hx. simpl. rewrite H in Hx. injection Hx as <-. tauto.
Qed.

(** The fields of a merged document. *)
Lemma merged_given args doc f v :
  args !! f = Some v → v ≠ VUndef →
  (strip_undefined args ∪ doc) !! f = Some v.
Proof.
  intros Hf Hv. apply lookup_union_Some_raw. left.
  by apply strip_undefined_defined.
Qed.

Lemma merged_kept args doc f :
  args !! f = None ∨ args !! f = Some VUndef →
  (strip_undefined args ∪ doc) !! f = doc !! f.
Proof. intros H. apply lookup_union_r. by apply strip_undefined_None. Qed.

Lemma merged_twice args doc :
  strip_undefined args ∪ (strip_undefined args ∪ doc)
  = strip_undefined args ∪ doc.
Proof. by rewrite (assoc_L (∪)), (idemp_L (∪)). Qed.

(** A document that names its kappa is found under that kappa, alone
    or merged over a document that was. *)
Lemma matches_kappa_args kappa args :
  args !! "kappa" = Some kappa →
  matches_kappa kappa (strip_undefined args) = true.
Proof.
  intros Hk. unfold matches_kappa.
  destruct kappa; apply bool_decide_eq_true;
    try (by apply strip_undefined_defined).
  - left. apply strip_undefined_None. by right.
  - right. by apply strip_undefined_defined.
Qed.

Lemma matches_kappa_merged kappa args doc :
  args !! "kappa" = Some kappa →
  matches_kappa kappa doc = true →
  matches_kappa kappa (strip_undefined args ∪ doc) = true.
Proof.
  intros Hk Hm. unfold matches_kappa in *.
  destruct kappa; apply bool_decide_eq_true;
    try (by apply merged_given).
  - apply bool_decide_eq_true in Hm.
    rewrite merged_kept by (by right). done.
  - right. by apply merged_given.
Qed.

Lemma findOne_None_app kappa db doc :
  findOne kappa db = None →
  findOne kappa (db ++ [doc])
  = if matches_kappa kappa doc then Some doc else None.
Proof.
  unfold findOne. induction db as [| d db IH]; simpl; [done |].
  destruct (matches_kappa kappa d); [done | exact IH].
Qed.

Lemma findOneAndUpdate_app kappa args db doc :
  findOne kappa db = None →
  findOneAndUpdate kappa args (db ++ [doc])
  = db ++ findOneAndUpdate kappa args [doc].
Proof.
  unfold findOne. induction db as [| d db IH]; simpl; [done |].
  destruct (matches_kappa kappa d); [done |].
  intros H. by rewrite IH.
Qed.

(** The update changes the first document of that kappa, and no other. *)
Lemma findOne_updated kappa args db doc :
  args !! "kappa" = Some kappa →
  findOne kappa db = Some doc →
  findOne kappa (findOneAndUpdate kappa args db)
  = Some (strip_undefined args ∪ doc).
Proof.
  intros Hk. unfold findOne.
  induction db as [| d db IH]; simpl; [done |].
  destruct (matches_kappa kappa d) eqn:Hd; simpl.
  - intros [= ->]. by rewrite matches_kappa_merged.
  - rewrite Hd. exact IH.
Qed.

Lemma findOneAndUpdate_length kappa args db :
  length (findOneAndUpdate kappa args db) = length db.
Proof.
  induction db as [| d db IH]; simpl; [done |].
  destruct (matches_kappa kappa d); simpl; by rewrite ?IH.
Qed.

Lemma findOneAndUpdate_twice kappa args db :
  args !! "kappa" = Some kappa →
  findOneAndUpdate kappa args (findOneAndUpdate kappa args db)
  = findOneAndUpdate kappa args db.
Proof.
  intros Hk. induction db as [| d db IH]; simpl; [done |].
  destruct (matches_kappa kappa d) eqn:Hd; simpl.
  - by rewrite matches_kappa_merged, merged_twice.
  - by rewrite Hd, IH.
Qed.

End Store.

(** C4. Upsert is idempotent: for every kappa and every partial record
    for that kappa (a record that names its kappa, as both call sites
    build it), applying the same pair twice leaves the document store as
    applying it once does. *)
Theorem upsert_idempotent (kappa : jsval) (args : gmap string jsval)
    (db : list (gmap string jsval)) :
  args !! "kappa" = Some kappa →
  upsertBridgeTxnInDb kappa args (upsertBridgeTxnInDb kappa args db)
  = upsertBridgeTxnInDb kappa args db.
Proof.
  intros Hk. unfold upsertBridgeTxnInDb at 2 3.
  destruct (findOne kappa db) as [doc |] eqn:Hfind.
  - unfold upsertBridgeTxnInDb.
    rewrite (findOne_updated kappa args db doc Hk Hfind).
    by apply findOneAndUpdate_twice.
  - unfold upsertBridgeTxnInDb, insert_doc.
    rewrite (findOne_None_app _ _ _ Hfind), (matches_kappa_args _ _ Hk).
    rewrite (findOneAndUpdate_app _ _ _ _ Hfind). simpl.
    rewrite (matches_kappa_args _ _ Hk). by rewrite (idemp_L (∪)).
Qed.

Lemma upsert_idempotent_witness :
  Sample.in_args !! "kappa" = Some (VStr (Sample.keccak Sample.deposit_hash))
  ∧ upsertBridgeTxnInDb (VStr (Sample.keccak Sample.deposit_hash)) Sample.in_args
      (upsertBridgeTxnInDb (VStr (Sample.keccak Sample.deposit_hash))
         Sample.in_args [Sample.out_doc])
    = upsertBridgeTxnInDb (VStr (Sample.keccak Sample.deposit_hash))
        Sample.in_args [Sample.out_doc].
Proof.
  split; [reflexivity |].
  apply (upsert_idempotent (VStr (Sample.keccak Sample.deposit_hash))
           Sample.in_args [Sample.out_doc]).
  reflexivity.
Defined.

(* ===================================================================== *)
(** ** The extractor: what reaches the upsert *)
(* ===================================================================== *)

Section Extractor.

Variables (env : Env) (chainConfig : ChainConfig).

(** A destructured string has no [fromAddress]. *)
Lemma string_has_no_fromAddress (s : string) :
  string_property s "fromAddress" = VUndef.
Proof. reflexivity. Qed.

Lemma processOut_upsert txnHash txn timestamp logs eventLogArgs kappa args :
  processOut env chainConfig txnHash txn timestamp logs eventLogArgs
  = Ok (Upsert kappa args) →
  kappa = VStr (keccak256 env txnHash)
  ∧ args !! "kappa" = Some kappa
  ∧ args !! "fromAddress" = Some VUndef
  ∧ args !! "fromTxnHash" = Some (VStr txnHash)
  ∧ args !! "pending" = Some (VBool true).
Proof.
  intros H. unfold processOut in H.
  next_call H. next_call H.
  injection H as <- <-. by repeat split.
Qed.

Lemma processOut_never_skips txnHash txn timestamp logs eventLogArgs logged :
  processOut env chainConfig txnHash txn timestamp logs eventLogArgs
  ≠ Ok (Skip logged).
Proof.
  intros H. unfold processOut in H. next_call H. next_call H.
Qed.

Lemma processIn_upsert txnHash txn timestamp logs eventName eventLogArgs
    kappa args :
  processIn env chainConfig txnHash txn timestamp logs eventName eventLogArgs
  = Ok (Upsert kappa args) →
  kappa = opt_str (arg_kappa eventLogArgs)
  ∧ ∃ receivedValue receivedToken swapSuccess,
      args = in_record chainConfig txnHash timestamp eventLogArgs
               receivedValue receivedToken swapSuccess.
Proof.
  intros H. unfold processIn in H.
  next_call H.
  destruct a as [[[[data rv] tok] sw] |]; [| discriminate H].
  assert (Hto : data_to data = arg_to eventLogArgs).
  { repeat match goal with
           | E : (if ?b then _ else _) = Ok _ |- _ => destruct b
           | E : mbind _ ?c = Ok _ |- _ =>
               destruct c; simpl in E; try discriminate E
           end; by simplify_eq. }
  next_call H.
  destruct (rvalue_falsy a); [discriminate H |].
  next_call H. destruct a0 as [rv' tok'].
  injection H as <- <-. split; [done |].
  unfold in_record. rewrite Hto. eauto.
Qed.

Lemma in_record_fields txnHash timestamp eventLogArgs rv tok sw :
  let args := in_record chainConfig txnHash timestamp eventLogArgs rv tok sw in
  args !! "kappa" = Some (opt_str (arg_kappa eventLogArgs))
  ∧ args !! "pending" = Some (VBool false)
  ∧ args !! "receivedValue" = Some rv
  ∧ args !! "receivedTokenAddress" = Some tok
  ∧ args !! "toAddress" = Some (opt_str (arg_to eventLogArgs))
  ∧ args !! "toChainId" = Some (VNum (Num (chain_id chainConfig))).
Proof. by repeat split. Qed.

(** The fields that only an OUT leg writes are not in an IN record. *)
Lemma in_record_out_only txnHash timestamp eventLogArgs rv tok sw f :
  f ∈ out_only_fields →
  in_record chainConfig txnHash timestamp eventLogArgs rv tok sw !! f = None.
Proof.
  unfold out_only_fields. rewrite !elem_of_cons, elem_of_nil.
  intros H. repeat destruct H as [-> | H]; try done.
Qed.

(** Both call sites hand upsert a record that names its kappa. *)
Lemma processEvent_names_kappa event kappa args :
  processEvent env chainConfig event = Ok (Upsert kappa args) →
  args !! "kappa" = Some kappa.
Proof.
  intros H. unfold processEvent in H.
  do 5 next_call H.
  destruct (String.eqb _ "OUT").
  - by apply processOut_upsert in H as (_ & ? & _).
  - apply processIn_upsert in H as (-> & rv & tok & sw & ->).
    apply in_record_fields.
Qed.

Lemma processEvents_app pre post db :
  processEvents env chainConfig (pre ++ post) db
  = match processEvents env chainConfig pre db with
    | (db1, Ok _) => processEvents env chainConfig post db1
    | (db1, Throw e) => (db1, Throw e)
    end.
Proof.
  revert db. induction pre as [| ev pre IH]; intros db; simpl; [done |].
  destruct (processEvent env chainConfig ev) as [[? | ? ?] | ?]; by rewrite ?IH.
Qed.

Lemma unknown_topic_fails (topicHash : option string) :
  (∀ t, topicHash = Some t → t ∉ getTopicsHash env) →
  getEventForTopic env topicHash = Throw UnknownTopic.
Proof.
  intros H. unfold getEventForTopic.
  destruct topicHash as [t |]; [| done].
  destruct (list_find _ _) as [[i [t' info]] |] eqn:Hfind; [| done].
  apply list_find_Some in Hfind as (Hi & Ht & _).
  simpl in Ht. subst t'.
  exfalso. apply (H t eq_refl). unfold getTopicsHash.
  apply list_elem_of_fmap. exists (t, info). split; [done |].
  by apply list_elem_of_lookup_2 in Hi.
Qed.

End Extractor.

(** C10. For every OUT event, the [fromAddress] of the partial record
    handed to upsert is undefined, whatever the transaction: it is read
    as a property of the sender-address string.  The upsert therefore
    writes no [fromAddress], and the document of a new kappa has none. *)
Theorem out_leg_fromAddress_undefined (env : Env) (chainConfig : ChainConfig)
    (event : Event) (info : EventInfo) (kappa : jsval)
    (args : gmap string jsval) :
  getEventForTopic env (head (topics event)) = Ok info →
  direction info = "OUT" →
  processEvent env chainConfig event = Ok (Upsert kappa args) →
  args !! "fromAddress" = Some VUndef
  ∧ strip_undefined args !! "fromAddress" = None
  ∧ ∀ db, findOne kappa db = None →
      ∃ doc, findOne kappa (upsertBridgeTxnInDb kappa args db) = Some doc
             ∧ doc !! "fromAddress" = None.
Proof.
  intros Hinfo Hdir H. unfold processEvent in H.
  rewrite Hinfo in H. do 4 next_call H.
  rewrite Hdir in H. simpl in H.
  apply processOut_upsert in H as (_ & Hk & Hfrom & _).
  assert (Hnone : strip_undefined args !! "fromAddress" = None).
  { apply strip_undefined_None. by right. }
  repeat split; try done.
  intros db Hdb. exists (strip_undefined args). split; [| done].
  unfold upsertBridgeTxnInDb, insert_doc. rewrite Hdb.
  by rewrite (findOne_None_app _ _ _ Hdb), (matches_kappa_args _ _ Hk).
Qed.

Lemma out_leg_fromAddress_undefined_witness :
  ∃ args,
    processEvent Sample.env0 Sample.bsc Sample.deposit_event
    = Ok (Upsert Sample.kappa args)
    ∧ args !! "fromAddress" = Some VUndef
    ∧ strip_undefined args !! "fromAddress" = None.
Proof.
  eexists. split; [reflexivity |].
  pose proof (out_leg_fromAddress_undefined Sample.env0 Sample.bsc
                Sample.deposit_event
                {| direction := "OUT"; eventName := "TokenDeposit" |}
                Sample.kappa _ eq_refl eq_refl eq_refl) as (H1 & H2 & _).
  exact (conj H1 H2).
Defined.

(** The value of a direct-withdraw leg, in doubles: the difference of
    amount and fee, less the fee once more. *)
Lemma withdraw_leg_value (env : Env) (chainConfig : ChainConfig)
    (txnHash : string) (txn : Transaction) (timestamp : Z) (logs : list Log)
    (eventLogArgs : LogArgs) (amount fee : Z) :
  arg_amount eventLogArgs = Some amount →
  arg_fee eventLogArgs = Some fee →
  fl (fl amount - fl fee) ≠ 0 →
  ∃ receivedToken,
    processIn env chainConfig txnHash txn timestamp logs "TokenWithdraw"
      eventLogArgs
    = Ok (Upsert (opt_str (arg_kappa eventLogArgs))
            (in_record chainConfig txnHash timestamp eventLogArgs
               (VNum (Num (fl (fl (fl amount - fl fee) - fl fee))))
               receivedToken VNull)).
Proof.
  intros Ha Hf Hne.
  unfold processIn. cbn -[fl]. rewrite Ha, Hf. cbn -[fl].
  apply Z.eqb_neq in Hne.
  rewrite Hne. cbn -[fl]. rewrite Hne. cbn -[fl].
  eexists. reflexivity.
Qed.

(** C2 (what the code does). A direct-withdraw leg always reaches the
    upsert, and with an amount and a fee that are exact as doubles the
    receivedValue it hands over is the amount minus twice the fee: the
    fee is subtracted at line 235 and again at line 281, where
    [swapSuccess] is still null.  For amount 1000 and fee 10 this is 980,
    not 990. *)
Theorem withdraw_leg_subtracts_fee_twice (env : Env) (chainConfig : ChainConfig)
    (txnHash : string) (txn : Transaction) (timestamp : Z) (logs : list Log)
    (eventLogArgs : LogArgs) (amount fee : Z) :
  arg_amount eventLogArgs = Some amount →
  arg_fee eventLogArgs = Some fee →
  0 ≤ fee < amount →
  amount ≤ 2 ^ 53 →
  ∃ receivedToken,
    processIn env chainConfig txnHash txn timestamp logs "TokenWithdraw"
      eventLogArgs
    = Ok (Upsert (opt_str (arg_kappa eventLogArgs))
            (in_record chainConfig txnHash timestamp eventLogArgs
               (VNum (Num (amount - 2 * fee))) receivedToken VNull)).
Proof.
  intros Ha Hf Hrange Hsafe.
  destruct (withdraw_leg_value env chainConfig txnHash txn timestamp logs
              eventLogArgs amount fee Ha Hf) as [tok Htok].
  { rewrite (fl_small amount), (fl_small fee), (fl_small (amount - fee)); lia. }
  exists tok. rewrite Htok.
  rewrite (fl_small amount), (fl_small fee), (fl_small (amount - fee)),
    (fl_small (amount - fee - fee)) by lia.
  do 5 f_equal. lia.
Qed.

Lemma withdraw_leg_subtracts_fee_twice_witness :
  ∃ receivedToken,
    processIn Sample.env0 Sample.bsc Sample.withdraw_hash Sample.sender
      1650000000 [Sample.withdraw_log] "TokenWithdraw" Sample.withdraw_args
    = Ok (Upsert Sample.kappa
            (in_record Sample.bsc Sample.withdraw_hash 1650000000
               Sample.withdraw_args (VNum (Num 980)) receivedToken VNull)).
Proof.
  apply (withdraw_leg_subtracts_fee_twice Sample.env0 Sample.bsc
           Sample.withdraw_hash Sample.sender 1650000000 [Sample.withdraw_log]
           Sample.withdraw_args 1000 10); [reflexivity | reflexivity | lia | lia].
Defined.

(** The whole batch on the withdraw of amount 1000 and fee 10: the
    document written holds 980. *)
Lemma withdraw_1000_10_persists_980 :
  ∃ doc,
    processEvents Sample.env0 Sample.bsc [Sample.withdraw_event] []
    = ([doc], Ok tt)
    ∧ doc !! "receivedValue" = Some (VNum (Num 980)).
Proof. eexists. split; reflexivity. Qed.

(** C7 (as the specification states it) fails: after an event with an
    unregistered topic the next event of the batch is not processed. *)
Lemma unknown_topic_is_not_skipped :
  unknown_topic Sample.env0 Sample.unknown_event
  ∧ ¬ unknown_topic_is_skipped Sample.env0 Sample.bsc
        Sample.unknown_event [Sample.withdraw_event] [].
Proof.
  split.
  - intros t [= <-] Hin.
    repeat (apply elem_of_cons in Hin as [[=] | Hin]).
    by apply elem_of_nil in Hin.
  - unfold unknown_topic_is_skipped. intros H.
    apply (f_equal (λ r, match r.2 with Ok _ => true | Throw _ => false end)) in H.
    vm_compute in H. discriminate H.
Qed.

(** C7 (amended). An event whose first topic is absent from the static
    topic table ends the batch with an exception: no record is written
    for it, the events after it are not processed, and the documents
    written for the events before it stay.  The exception is UnknownTopic
    when the transaction and the block of the event were fetched. *)
Theorem unknown_topic_ends_batch (env : Env) (chainConfig : ChainConfig)
    (pre : list Event) (event : Event) (post : list Event)
    (db db1 : list (gmap string jsval)) :
  unknown_topic env event →
  processEvents env chainConfig pre db = (db1, Ok tt) →
  ∃ e, processEvents env chainConfig (pre ++ event :: post) db = (db1, Throw e)
       ∧ (∀ txn block, getTransaction event = Ok txn →
            getBlock event = Ok block → e = UnknownTopic).
Proof.
  intros Hunknown Hpre.
  rewrite processEvents_app, Hpre. simpl.
  unfold processEvent. rewrite (unknown_topic_fails env _ Hunknown).
  destruct (getTransaction event) as [txn | e1]; simpl.
  - destruct (getBlock event) as [block | e2]; simpl.
    + exists UnknownTopic. by split.
    + exists e2. split; [done |]. intros ? ? _ [=].
  - exists e1. split; [done |]. intros ? ? [=].
Qed.

Lemma unknown_topic_ends_batch_witness :
  ∃ e, processEvents Sample.env0 Sample.bsc
         ([] ++ Sample.unknown_event :: [Sample.withdraw_event]) []
       = ([], Throw e)
       ∧ (∀ txn block, getTransaction Sample.unknown_event = Ok txn →
            getBlock Sample.unknown_event = Ok block → e = UnknownTopic).
Proof.
  apply (unknown_topic_ends_batch Sample.env0 Sample.bsc []
           Sample.unknown_event [Sample.withdraw_event] [] []).
  - intros t [= <-] Hin.
    repeat (apply elem_of_cons in Hin as [[=] | Hin]).
    by apply elem_of_nil in Hin.
  - reflexivity.
Defined.

Lemma mint_rescan_run (env : Env) (amount : Z) (pre : list Log) (log : Log)
    (post : list Log) (v : Z) (receivedValue : rvalue) (receivedToken : jsval) :
  candidates env (λ w, amount ≤ w) pre →
  BigNumber_from env (log_data log) = Ok v →
  v < amount →
  mint_rescan env (Some amount) (pre ++ log :: post) receivedValue receivedToken
  = Ok (RBig v, VStr (log_address log)).
Proof.
  intros Hpre Hv Hlt. revert receivedValue receivedToken.
  induction Hpre as [| l pre (w & Hw & Hle) _ IH]; intros rv tok; simpl.
  - rewrite Hv. simpl.
    destruct (Z.gtb_spec amount v); [done | lia].
  - rewrite Hw. simpl.
    destruct (Z.gtb_spec amount w); [lia | apply IH].
Qed.

Lemma rvalue_strict_ne_BigNumber (v : rvalue) (amount : Z) :
  rvalue_strict_ne v (Some amount) = true.
Proof. by destruct v. Qed.

(** C8 (as the specification states it) fails: a candidate equal to the
    decoded amount does not stop the rescan. *)
Lemma rescan_passes_candidate_equal_to_amount :
  ¬ rescan_stops_at_first_not_exceeding Sample.env0 100 Sample.mint_receipt
      (RBig 100) (VStr Sample.nUSD).
Proof.
  intros H.
  specialize (H [] (Sample.transfer_log Sample.nUSD "0x64")
                [Sample.transfer_log Sample.USDC "0x32"; Sample.mint_log] 100
                eq_refl (Forall_nil_2 _) eq_refl ltac:(lia)).
  vm_compute in H. discriminate H.
Qed.

(** C8 (amended). For the mint variant only, when the scanned value
    disagrees with the decoded amount (and whenever both are BigNumbers,
    which are compared as objects), the receipt logs are rescanned in
    order, each log's raw data and address being the candidate value and
    token, and the rescan stops at the first candidate whose value is
    strictly below the decoded amount.  For any other event name the
    value and the token stay as they are. *)
Theorem mint_correction_stops_below_amount (env : Env) (eventName : string)
    (amount : Z) (logs pre : list Log) (log : Log) (post : list Log) (v : Z)
    (receivedValue : rvalue) (receivedToken : jsval) :
  logs = pre ++ log :: post →
  candidates env (λ w, amount ≤ w) pre →
  BigNumber_from env (log_data log) = Ok v →
  v < amount →
  mint_correction env eventName (Some amount) logs receivedValue receivedToken
  = if String.eqb eventName "TokenMint"
    then Ok (RBig v, VStr (log_address log))
    else Ok (receivedValue, receivedToken).
Proof.
  intros -> Hpre Hv Hlt. unfold mint_correction.
  rewrite rvalue_strict_ne_BigNumber, andb_true_r.
  destruct (String.eqb eventName "TokenMint"); [| done].
  by apply mint_rescan_run.
Qed.

Lemma mint_correction_stops_below_amount_witness :
  mint_correction Sample.env0 "TokenMint" (Some 100) Sample.mint_receipt
    (RBig 100) (VStr Sample.nUSD)
  = Ok (RBig 50, VStr Sample.USDC).
Proof.
  apply (mint_correction_stops_below_amount Sample.env0 "TokenMint" 100
           Sample.mint_receipt [Sample.transfer_log Sample.nUSD "0x64"]
           (Sample.transfer_log Sample.USDC "0x32") [Sample.mint_log] 50
           (RBig 100) (VStr Sample.nUSD)).
  - reflexivity.
  - constructor; [| constructor]. exists 100. split; [reflexivity | lia].
  - reflexivity.
  - lia.
Defined.

(** The mint leg from end to end: the candidate on which the rescan
    stops, less the fee, is the value of the record, and the address of
    that log is its token. *)
Lemma mint_leg_record (env : Env) (chainConfig : ChainConfig)
    (txnHash : string) (txn : Transaction) (timestamp : Z) (logs : list Log)
    (eventLogArgs : LogArgs) (amount fee : Z) (token : string)
    (tokenContract : Log → result (option Z)) (scanned : Z)
    (pre : list Log) (log : Log) (post : list Log) (v : Z) :
  arg_amount eventLogArgs = Some amount →
  arg_fee eventLogArgs = Some fee →
  arg_token eventLogArgs = Some token →
  chain_id chainConfig ≠ 43114 →
  getTokenContract env (chain_id chainConfig) (VStr token) = Ok tokenContract →
  search_received_value tokenContract (VStr token) RNull logs
  = Ok (RBig scanned) →
  logs = pre ++ log :: post →
  candidates env (λ w, amount ≤ w) pre →
  BigNumber_from env (log_data log) = Ok v →
  v < amount →
  processIn env chainConfig txnHash txn timestamp logs "TokenMint" eventLogArgs
  = Ok (Upsert (opt_str (arg_kappa eventLogArgs))
          (in_record chainConfig txnHash timestamp eventLogArgs
             (VNum (Num (fl (fl v - fl fee)))) (VStr (log_address log)) VNull)).
Proof.
  intros Ha Hf Ht Hchain Htc Hscan Hlogs Hpre Hv Hlt.
  unfold processIn, mint_correction. cbn -[fl]. rewrite Ha, Hf, Ht.
  apply Z.eqb_neq in Hchain. rewrite Hchain.
  cbn -[fl]. rewrite Htc. cbn -[fl]. rewrite Hscan. cbn -[fl].
  rewrite Hlogs, (mint_rescan_run env amount pre log post v _ _ Hpre Hv Hlt).
  reflexivity.
Qed.

(** The mint of amount 100 and fee 1, through the whole batch: the
    record holds the second log's value less the fee, and its address. *)
Lemma mint_100_persists_second_candidate :
  ∃ doc,
    processEvents Sample.env0 Sample.bsc [Sample.mint_event] []
    = ([doc], Ok tt)
    ∧ doc !! "receivedValue" = Some (VNum (Num 49))
    ∧ doc !! "receivedTokenAddress" = Some (VStr Sample.USDC).
Proof. eexists. repeat split; reflexivity. Qed.

(** C3 (as the specification states it) fails: the IN record names
    another recipient than the stored OUT leg, and the recipient of the
    stored document is overwritten. *)
Lemma merge_overwrites_shared_field :
  findOne Sample.kappa [Sample.out_doc] = Some Sample.out_doc
  ∧ ¬ merge_never_overwrites Sample.kappa Sample.in_args [Sample.out_doc].
Proof.
  split; [reflexivity |]. intros H.
  destruct (H Sample.out_doc (strip_undefined Sample.in_args ∪ Sample.out_doc)
              eq_refl) as [_ Hkeep].
  { apply findOne_updated; reflexivity. }
  specialize (Hkeep "toAddress" (VStr Sample.user) ltac:(discriminate) eq_refl).
  vm_compute in Hkeep. discriminate Hkeep.
Qed.

(** C3 (amended). When the stored record of a kappa holds the OUT leg,
    upserting the IN partial record of that kappa adds no document and
    leaves, under that kappa, the union of both legs' fields with
    pending false: each field that only the OUT leg writes keeps its
    stored value, and each field of the IN record (among them toAddress,
    toChainId, kappa and pending, which the OUT leg writes too) holds
    the IN record's value unless that value is undefined. *)
Theorem in_leg_merges_over_out_leg (env : Env) (chainConfig : ChainConfig)
    (txnHash : string) (txn : Transaction) (timestamp : Z) (logs : list Log)
    (eventName : string) (eventLogArgs : LogArgs) (kappa : string)
    (args stored : gmap string jsval) (db : list (gmap string jsval)) :
  processIn env chainConfig txnHash txn timestamp logs eventName eventLogArgs
  = Ok (Upsert (VStr kappa) args) →
  findOne (VStr kappa) db = Some stored →
  ∃ merged,
    findOne (VStr kappa) (upsertBridgeTxnInDb (VStr kappa) args db) = Some merged
    ∧ length (upsertBridgeTxnInDb (VStr kappa) args db) = length db
    ∧ dom merged = dom (strip_undefined args) ∪ dom stored
    ∧ merged !! "pending" = Some (VBool false)
    ∧ (∀ f, f ∈ out_only_fields → merged !! f = stored !! f)
    ∧ (∀ f v, args !! f = Some v → v ≠ VUndef → merged !! f = Some v)
    ∧ (∀ f, args !! f = None → merged !! f = stored !! f).
Proof.
  intros Hin Hstored.
  apply processIn_upsert in Hin as (Hk & rv & tok & sw & ->).
  set (args := in_record chainConfig txnHash timestamp eventLogArgs rv tok sw).
  assert (Hkappa : args !! "kappa" = Some (VStr kappa)).
  { rewrite Hk. apply in_record_fields. }
  exists (strip_undefined args ∪ stored).
  unfold upsertBridgeTxnInDb. rewrite Hstored.
  split; [by apply findOne_updated |].
  split; [apply findOneAndUpdate_length |].
  split; [apply dom_union_L |].
  split; [by apply merged_given |].
  split; [| split].
  - intros f Hf. apply merged_kept. left. by apply in_record_out_only.
  - intros f v Hf Hv. by apply merged_given.
  - intros f Hf. apply merged_kept. by left.
Qed.

Lemma in_leg_merges_over_out_leg_witness :
  ∃ merged,
    findOne Sample.kappa
      (upsertBridgeTxnInDb Sample.kappa Sample.withdraw_record [Sample.out_doc])
    = Some merged
    ∧ merged !! "pending" = Some (VBool false)
    ∧ merged !! "fromTxnHash" = Some (VStr Sample.deposit_hash)
    ∧ merged !! "receivedValue" = Some (VNum (Num 980)).
Proof.
  destruct (in_leg_merges_over_out_leg Sample.env0 Sample.bsc
              Sample.withdraw_hash Sample.sender 1650000000
              [Sample.withdraw_log] "TokenWithdraw" Sample.withdraw_args
              (Sample.keccak Sample.deposit_hash) Sample.withdraw_record
              Sample.out_doc [Sample.out_doc] eq_refl eq_refl)
    as (merged & Hfind & _ & _ & Hpending & Hout & Hin & _).
  exists merged. split; [exact Hfind |]. split; [exact Hpending |]. split.
  - rewrite (Hout "fromTxnHash"); [reflexivity |].
    unfold out_only_fields. apply elem_of_cons. by left.
  - apply Hin; [reflexivity | discriminate].
Defined.

(* ===================================================================== *)
(** ** The indexing pass *)
(* ===================================================================== *)

Section Pass.

Variable chainConfig : ChainConfig.

Abbreviation lock := (lock_key (chain_name chainConfig)).
Abbreviation checkpoint := (checkpoint_key (chain_name chainConfig)).

Lemma lock_is_not_checkpoint : lock ≠ checkpoint.
Proof.
  unfold lock_key, checkpoint_key.
  induction (chain_name chainConfig) as [| c s IH]; simpl.
  - discriminate.
  - intros [= H]. by apply IH.
Qed.

Lemma read_after_lock (r : gmap string string) (v : string) :
  <[lock := v]> r !! checkpoint = r !! checkpoint.
Proof. apply lookup_insert_ne, lock_is_not_checkpoint. Qed.

(** What the body of the [try] block does to the key-value store. *)
Lemma body_stores (env : Env) (w w' : World) (r : result outcome) :
  indexForward_body env chainConfig w = (w', r) →
  match r with
  | Throw _ => redis w' = redis w
  | Ok (UpToDate block) =>
      redis w' = <[lock := "false"]> (redis w) ∧ db w' = db w
      ∧ ∃ head, getBlockNumber env = Ok head
          ∧ block = read_checkpoint (redis w !! checkpoint) head
          ∧ num_eqb block (Num head) = true
  | Ok (Indexed fromBlock toBlock) =>
      redis w'
      = <[lock := "false"]>
          (<[checkpoint := Number_toString toBlock]> (redis w))
      ∧ ∃ head, getBlockNumber env = Ok head
          ∧ fromBlock = read_checkpoint (redis w !! checkpoint) head
          ∧ num_eqb fromBlock (Num head) = false
          ∧ toBlock = window_end head fromBlock
  | Ok AlreadyInProgress | Ok (Failed _) => False
  end.
Proof.
  unfold indexForward_body.
  destruct (getW3Provider env _ _); [| by intros [= <- <-]].
  destruct (getBlockNumber env) as [head |]; [| by intros [= <- <-]].
  destruct (num_eqb _ (Num head)) eqn:Hup.
  { intros [= <- <-]. simpl. eauto 7. }
  destruct (getAddress env _); [| by intros [= <- <-]].
  destruct (queryFilter env _ _ _ _); [| by intros [= <- <-]].
  destruct (processEvents env chainConfig _ _) as [db' [[] | e]].
  - intros [= <- <-]. simpl. eauto 7.
  - by intros [= <- <-].
Qed.

(** A failure inside the body happens before the documents change, or
    while the events are processed. *)
Lemma body_absent_checkpoint (env : Env) (w w' : World) (r : result outcome) :
  redis w !! checkpoint = None →
  indexForward_body env chainConfig w = (w', r) →
  db w' = db w ∧ ∀ fromBlock toBlock, r ≠ Ok (Indexed fromBlock toBlock).
Proof.
  intros Habsent. unfold indexForward_body.
  destruct (getW3Provider env _ _); [| by intros [= <- <-]].
  destruct (getBlockNumber env) as [head |]; [| by intros [= <- <-]].
  rewrite Habsent. simpl. rewrite Z.eqb_refl.
  by intros [= <- <-].
Qed.

(** The outcome of processing a batch does not depend on the documents
    already stored. *)
Lemma processEvents_outcome (env : Env) (events : list Event)
    (db1 db2 : list (gmap string jsval)) :
  (processEvents env chainConfig events db1).2
  = (processEvents env chainConfig events db2).2.
Proof.
  revert db1 db2. induction events as [| ev events IH]; intros db1 db2;
    simpl; [done |].
  destruct (processEvent env chainConfig ev) as [[? | ? ?] | ?]; auto.
Qed.

Lemma body_outcome (env : Env) (w1 w2 : World) :
  redis w1 !! checkpoint = redis w2 !! checkpoint →
  (indexForward_body env chainConfig w1).2
  = (indexForward_body env chainConfig w2).2.
Proof.
  intros Hcp. unfold indexForward_body.
  destruct (getW3Provider env _ _); [| done].
  destruct (getBlockNumber env) as [head |]; [| done].
  rewrite Hcp.
  destruct (num_eqb _ (Num head)); [done |].
  destruct (getAddress env _); [| done].
  destruct (queryFilter env _ _ _ _) as [events |]; [| done].
  pose proof (processEvents_outcome env events (db w1) (db w2)) as Hout.
  destruct (processEvents env chainConfig events (db w1)) as [? [[] | ?]],
           (processEvents env chainConfig events (db w2)) as [? [[] | ?]];
    simpl in Hout; by simplify_eq.
Qed.

(** The value that [parseInt] returns is a double. *)
Lemma parseInt_double (s : string) (z : Z) : parseInt s = Num z → fl z = z.
Proof.
  unfold parseInt. destruct (strip_sign _) as [neg s1].
  destruct (match strip_hex_prefix s1 with
            | Some r => parse_digits 16 r None
            | None => parse_digits 10 s1 None
            end); [| done].
  intros [= <-]. apply fl_idem.
Qed.

End Pass.

(** A pass on a store without checkpoint leaves the key absent and the
    documents as they are. *)
Lemma pass_without_checkpoint (env : Env) (chainConfig : ChainConfig)
    (w : World) :
  redis w !! checkpoint_key (chain_name chainConfig) = None →
  redis (indexForward env chainConfig w).1
    !! checkpoint_key (chain_name chainConfig) = None
  ∧ db (indexForward env chainConfig w).1 = db w.
Proof.
  intros Habsent. unfold indexForward.
  destruct (bool_decide _); [done |].
  set (w1 := redis_set _ "true" w).
  assert (Habsent1 : redis w1 !! checkpoint_key (chain_name chainConfig) = None).
  { unfold w1. simpl. by rewrite read_after_lock. }
  destruct (indexForward_body env chainConfig w1) as [w' r] eqn:Hbody.
  pose proof (body_stores chainConfig env w1 w' r Hbody) as Hstores.
  destruct (body_absent_checkpoint chainConfig env w1 w' r Habsent1 Hbody)
    as [Hdb Hnot].
  destruct r as [[| block | fromBlock toBlock | e] | e]; simpl in *;
    try done.
  - destruct Hstores as (Hredis & _ & _).
    rewrite Hredis, !read_after_lock. by split.
  - by destruct (Hnot fromBlock toBlock).
  - rewrite read_after_lock, Hstores, read_after_lock. by split.
Qed.

(** C1 (what the code does). On a chain with no persisted checkpoint an
    invocation never creates it: the checkpoint defaults to the network
    head in memory, the pass finds itself up to date and returns at line
    38 before any write of the checkpoint.  The key is still absent
    afterwards, no document is written and no window is processed. *)
Theorem first_run_creates_no_checkpoint (env : Env) (chainConfig : ChainConfig)
    (w : World) :
  redis w !! checkpoint_key (chain_name chainConfig) = None →
  redis (indexForward env chainConfig w).1
    !! checkpoint_key (chain_name chainConfig) = None
  ∧ db (indexForward env chainConfig w).1 = db w
  ∧ ∀ fromBlock toBlock,
      (indexForward env chainConfig w).2 ≠ Indexed fromBlock toBlock.
Proof.
  intros Habsent. unfold indexForward.
  destruct (bool_decide _); [by repeat split |].
  set (w1 := redis_set _ "true" w).
  assert (Habsent1 : redis w1 !! checkpoint_key (chain_name chainConfig) = None).
  { unfold w1. simpl. by rewrite read_after_lock. }
  destruct (indexForward_body env chainConfig w1) as [w' r] eqn:Hbody.
  pose proof (body_stores chainConfig env w1 w' r Hbody) as Hstores.
  pose proof (body_absent_checkpoint chainConfig env w1 w' r Habsent1 Hbody)
    as [Hdb Hnot].
  destruct r as [[| block | fromBlock toBlock | e] | e]; simpl in *;
    try done.
  - destruct Hstores as (Hredis & _ & _).
    rewrite Hredis, !read_after_lock. by repeat split.
  - by destruct (Hnot fromBlock toBlock).
  - rewrite read_after_lock, Hstores, read_after_lock. by repeat split.
Qed.

Lemma first_run_creates_no_checkpoint_witness :
  redis (indexForward (Sample.env (Ok 1000) (λ _ _, Ok [Sample.withdraw_event]))
           Sample.bsc Sample.empty_world).1
    !! checkpoint_key "bsc" = None
  ∧ db (indexForward (Sample.env (Ok 1000) (λ _ _, Ok [Sample.withdraw_event]))
          Sample.bsc Sample.empty_world).1 = [].
Proof.
  destruct (first_run_creates_no_checkpoint
              (Sample.env (Ok 1000) (λ _ _, Ok [Sample.withdraw_event]))
              Sample.bsc Sample.empty_world eq_refl) as (H1 & H2 & _).
  exact (conj H1 H2).
Defined.

(** However often the pass is invoked, and whatever the chain answers,
    a store without checkpoint stays without one and nothing is indexed. *)
Lemma no_checkpoint_ever (chainConfig : ChainConfig) (envs : list Env)
    (w : World) :
  redis w !! checkpoint_key (chain_name chainConfig) = None →
  redis (invocations chainConfig envs w)
    !! checkpoint_key (chain_name chainConfig) = None
  ∧ db (invocations chainConfig envs w) = db w.
Proof.
  revert w. induction envs as [| env envs IH]; intros w Habsent; [done |].
  destruct (pass_without_checkpoint env chainConfig w Habsent)
    as (Hcp & Hdb).
  unfold invocations in *. simpl.
  destruct (IH _ Hcp) as [? ?]. split; [done | congruence].
Qed.

(** C5. A pass that fails after it acquired the lock ends with the lock
    flag released and the checkpoint as it was, and the next invocation
    does what it would have done from the store before the failed pass:
    with the same chain answers it selects the identical window. *)
Theorem failed_pass_releases_lock_keeps_checkpoint (env : Env)
    (chainConfig : ChainConfig) (w w' : World) (e : error) :
  indexForward env chainConfig w = (w', Failed e) →
  redis w !! lock_key (chain_name chainConfig) ≠ Some "true"
  ∧ redis w' !! lock_key (chain_name chainConfig) = Some "false"
  ∧ redis w' !! checkpoint_key (chain_name chainConfig)
    = redis w !! checkpoint_key (chain_name chainConfig)
  ∧ ∀ env2, (indexForward env2 chainConfig w').2
            = (indexForward env2 chainConfig w).2.
Proof.
  unfold indexForward at 1.
  destruct (bool_decide _) eqn:Hlock; [by intros [= _ ?] |].
  apply bool_decide_eq_false in Hlock.
  set (w1 := redis_set _ "true" w).
  destruct (indexForward_body env chainConfig w1) as [w2 r] eqn:Hbody.
  pose proof (body_stores chainConfig env w1 w2 r Hbody) as Hstores.
  destruct r as [o | e2].
  { intros [= <- ->]. done. }
  intros [= <- <-]. simpl in *.
  assert (Hcp : <[lock_key (chain_name chainConfig) := "false"]> (redis w2)
                !! checkpoint_key (chain_name chainConfig)
                = redis w !! checkpoint_key (chain_name chainConfig)).
  { by rewrite read_after_lock, Hstores, read_after_lock. }
  split; [done |]. split; [apply lookup_insert_eq |]. split; [done |].
  intros env2. unfold indexForward. simpl.
  rewrite lookup_insert_eq.
  rewrite (bool_decide_eq_false_2 _ Hlock).
  rewrite (bool_decide_eq_false_2 (Some "false" = Some "true")) by discriminate.
  match goal with
  | |- (match indexForward_body _ _ ?a with _ => _ end).2
       = (match indexForward_body _ _ ?b with _ => _ end).2 =>
      pose proof (body_outcome chainConfig env2 a b) as Hout;
      destruct (indexForward_body env2 chainConfig a) as [? [? | ?]],
               (indexForward_body env2 chainConfig b) as [? [? | ?]]
  end; simpl in *;
    (lapply Hout;
       [intros ?; by simplify_eq
       | by rewrite !read_after_lock, Hstores, read_after_lock]).
Qed.

Lemma failed_pass_releases_lock_keeps_checkpoint_witness :
  ∃ w',
    indexForward
      (Sample.env (Ok 1000)
         (λ _ _, Ok [Sample.withdraw_event; Sample.failing_event]))
      Sample.bsc (Sample.world_at "100")
    = (w', Failed (CallFailed "timeout"))
    ∧ redis w' !! lock_key "bsc" = Some "false"
    ∧ redis w' !! checkpoint_key "bsc" = Some "100"
    ∧ length (db w') = 1%nat.
Proof.
  eexists. split; [reflexivity |].
  destruct (failed_pass_releases_lock_keeps_checkpoint
              (Sample.env (Ok 1000)
                 (λ _ _, Ok [Sample.withdraw_event; Sample.failing_event]))
              Sample.bsc (Sample.world_at "100") _ _ eq_refl)
    as (_ & Hlock & Hcp & _).
  split; [exact Hlock |]. split; [exact Hcp | reflexivity].
Defined.

(** C6 (as the specification states it) fails: with the checkpoint at
    1000 and a chain reader that reports head 990 and no events, the
    pass succeeds and writes 990. *)
Lemma checkpoint_decreases_when_head_is_behind :
  redis (indexForward (Sample.env (Ok 990) (λ _ _, Ok [])) Sample.bsc
           (Sample.world_at "1000")).1 !! checkpoint_key "bsc" = Some "990"
  ∧ ¬ checkpoint_never_decreases (Sample.env (Ok 990) (λ _ _, Ok []))
        Sample.bsc (Sample.world_at "1000").
Proof.
  split; [reflexivity |]. intros H.
  assert (1000 ≤ 990) by (eapply H; reflexivity). lia.
Qed.

(** C6 (amended). A pass that ends by writing the checkpoint, and in
    which the network head read was not below the checkpoint read,
    writes a checkpoint that is greater than or equal to the one it read
    (and not above the head). *)
Theorem checkpoint_not_decreased_when_head_not_behind (env : Env)
    (chainConfig : ChainConfig) (w w' : World) (read : Z) (toBlock : number)
    (head : Z) :
  indexForward env chainConfig w = (w', Indexed (Num read) toBlock) →
  getBlockNumber env = Ok head →
  read ≤ head →
  ∃ stored written,
    redis w !! checkpoint_key (chain_name chainConfig) = Some stored
    ∧ parseInt stored = Num read
    ∧ toBlock = Num written
    ∧ redis w' !! checkpoint_key (chain_name chainConfig)
      = Some (Number_toString (Num written))
    ∧ read ≤ written ≤ head.
Proof.
  unfold indexForward.
  destruct (bool_decide _); [by intros [= _ ?] |].
  set (w1 := redis_set _ "true" w).
  destruct (indexForward_body env chainConfig w1) as [w2 r] eqn:Hbody.
  pose proof (body_stores chainConfig env w1 w2 r Hbody) as Hstores.
  destruct r as [o | e2]; [| by intros [= _ ?]].
  intros [= <- ->] Hhead Hle. simpl in Hstores.
  destruct Hstores as (Hredis & head' & Hhead' & Hread & Hne & Hto).
  rewrite Hhead in Hhead'. injection Hhead' as <-.
  unfold w1 in Hread. simpl in Hread. rewrite read_after_lock in Hread.
  unfold read_checkpoint in Hread.
  destruct (redis w !! checkpoint_key (chain_name chainConfig))
    as [stored |] eqn:Hstored.
  2: { injection Hread as ->. simpl in Hne. by rewrite Z.eqb_refl in Hne. }
  destruct (String.eqb stored "").
  { injection Hread as ->. simpl in Hne. by rewrite Z.eqb_refl in Hne. }
  symmetry in Hread.
  pose proof (parseInt_double stored read Hread) as Hdouble.
  pose proof (fl_mono read (read + 500) ltac:(lia)) as Hmono.
  rewrite Hdouble in Hmono.
  exists stored, (Z.min head (fl (read + 500))).
  split; [done |]. split; [done |]. split; [by rewrite Hto |].
  split; [| lia].
  rewrite Hredis, lookup_insert_ne by apply lock_is_not_checkpoint.
  by rewrite lookup_insert_eq, Hto.
Qed.

Lemma checkpoint_not_decreased_when_head_not_behind_witness :
  ∃ stored written,
    redis (Sample.world_at "100") !! checkpoint_key "bsc" = Some stored
    ∧ parseInt stored = Num 100
    ∧ Num 600 = Num written
    ∧ redis (indexForward (Sample.env (Ok 1000) (λ _ _, Ok [])) Sample.bsc
               (Sample.world_at "100")).1 !! checkpoint_key "bsc"
      = Some (Number_toString (Num written))
    ∧ 100 ≤ written ≤ 1000.
Proof.
  apply (checkpoint_not_decreased_when_head_not_behind
           (Sample.env (Ok 1000) (λ _ _, Ok [])) Sample.bsc
           (Sample.world_at "100") _ 100 (Num 600) 1000);
    [reflexivity | reflexivity | lia].
Defined.
